(** * PythonHPC: the numeric kernels and toy buffers of the notebooks

    A shallow embedding of the kernels defined in
    [cython/notebooks/Cython1.ipynb],
    [numba/simple/euclidean-distance-matrix-numba.jit.ipynb] and
    [numba/simple/cityblock-distance-matrix-numba.jit.ipynb].

    Conventions of the embedding.
    - C [int], [unsigned int] and [size_t] values are integers of [Z];
      every conversion between them and every wrap-around is written out
      ([to_int], [to_uint], [to_size_t]). Arguments declared [int] are
      taken within the range of [int] ([is_int]).
    - [double] values. Where a test, a count or an error depends on
      them (the Julia kernels and the variants of [pi_mc]) the code is
      written over the arithmetic of doubles, the class [Double], and
      holds for each of its instances: [binary64], IEEE 754 double
      precision on Rocq's primitive floats, with rounding, infinities and
      NaN, and [exact_arithmetic], the rationals [Qc]. Where doubles are
      data only (the distance kernels, the sums, the rectangles) they are
      exact rationals ([Qc]), and the properties proved there are
      properties of exact arithmetic.
    - A two-dimensional array is its shape and its rows; [well_formed]
      says that the rows agree with the shape.
    - A call either returns, raises a Python exception, or has undefined
      behaviour (an access outside a buffer that is not bounds-checked, a
      read of memory that was never written): [outcome]. *)

From stdpp Require Import base list numbers option strings pretty.
From Equations Require Import Equations.
From Stdlib Require Import QArith Qcanon Qcabs.
From Stdlib Require Import Floats.

Close Scope Qc_scope.
Close Scope Q_scope.
Local Open Scope Z_scope.

(** ** Outcomes of a call *)

Inductive exn : Type :=
| Exception (msg : string)
| ZeroDivisionError
| IndexError
| ValueError
| OverflowError.

Inductive outcome (A : Type) : Type :=
| Returns (a : A)
| Raises (e : exn)
| Undefined.
Arguments Returns {A} a.
Arguments Raises {A} e.
Arguments Undefined {A}.

#[global] Instance outcome_ret : MRet outcome := λ A a, Returns a.
#[global] Instance outcome_bind : MBind outcome := λ A B f m,
  match m with
  | Returns a => f a
  | Raises e => Raises e
  | Undefined => Undefined
  end.

(** [for a in l: body], threading the loop-carried state. *)
Fixpoint for_each {A S : Type} (l : list A) (body : A → S → outcome S) (s : S)
  : outcome S :=
  match l with
  | [] => Returns s
  | a :: l' => s' ← body a s; for_each l' body s'
  end.

(** [while cond: body]. The loop is defined by well-founded recursion on a
    measure that every pass of the body decreases. *)
Definition inspect {A : Type} (a : A) : {b : A | a = b} := exist _ a eq_refl.

Section While.
Context {S : Type} (cond : S → bool) (body : S → S) (measure : S → nat).
Context (decreases : ∀ s, cond s = true → (measure (body s) < measure s)%nat).

Equations while (s : S) : S by wf (measure s) lt :=
while s with inspect (cond s) => {
  | exist _ true _ := while (body s);
  | exist _ false _ := s }.

(** One pass of the loop: [step s s'] when the condition holds in [s] and
    the body takes [s] to [s']. *)
Definition step (s s' : S) : Prop := cond s = true ∧ s' = body s.

End While.

(** ** Doubles *)

(** The arithmetic of C [double] and Python [float] as the kernels use
    it: the four operations, the comparisons [<] and [<=], the conversion
    of an integer, and the integers that Python refuses to convert to a
    float ([OverflowError: int too large to convert to float]). The sum
    does not depend on the order of its operands; integers of 64 bits
    are always converted, and so is an integer of smaller magnitude than
    one that is converted. *)
Class Double (D : Type) : Type := {
  dbl_add : D → D → D;
  dbl_sub : D → D → D;
  dbl_mul : D → D → D;
  dbl_div : D → D → D;
  dbl_ltb : D → D → bool;
  dbl_leb : D → D → bool;
  dbl_of_Z : Z → D;
  dbl_overflow : Z → bool;
  dbl_add_comm : ∀ x y : D, dbl_add x y = dbl_add y x;
  dbl_overflow_long : ∀ n : Z, - 2 ^ 63 ≤ n < 2 ^ 63 → dbl_overflow n = false;
  dbl_overflow_below : ∀ m n : Z,
    Z.abs m ≤ Z.abs n → dbl_overflow n = false → dbl_overflow m = false
}.

Declare Scope double_scope.
Delimit Scope double_scope with D.
Infix "+" := dbl_add : double_scope.
Infix "-" := dbl_sub : double_scope.
Infix "*" := dbl_mul : double_scope.
Infix "/" := dbl_div : double_scope.
Infix "<?" := dbl_ltb : double_scope.
Infix "<=?" := dbl_leb : double_scope.

(** IEEE 754 binary64. The operations are those of the hardware, each
    rounded on its own to the nearest double, ties to even. An integer
    is converted to the nearest double, ties to even; the integers that
    round beyond the largest double, those of magnitude [2^1024 - 2^970]
    and more, are the ones Python refuses. *)
Definition float_of_Z (n : Z) : float :=
  SF2Prim (binary_normalize prec emax n 0 false).

Definition float_overflow (n : Z) : bool :=
  bool_decide (2 ^ 1024 - 2 ^ 970 ≤ Z.abs n).

Lemma float_add_comm (x y : float) : PrimFloat.add x y = PrimFloat.add y x.
Proof.
  apply Prim2SF_inj. rewrite !add_spec. unfold SF64add, SFadd.
  destruct (Prim2SF x) as [sx|sx| |sx mx ex], (Prim2SF y) as [sy|sy| |sy my ey];
    try reflexivity; try (destruct sx, sy; reflexivity).
  by rewrite Z.min_comm, Z.add_comm.
Qed.

Lemma float_overflow_long (n : Z) :
  - 2 ^ 63 ≤ n < 2 ^ 63 → float_overflow n = false.
Proof.
  intros Hn. apply bool_decide_eq_false.
  assert (H : 2 ^ 64 ≤ 2 ^ 1024 - 2 ^ 970) by (vm_compute; discriminate).
  lia.
Qed.

Lemma float_overflow_below (m n : Z) :
  Z.abs m ≤ Z.abs n → float_overflow n = false → float_overflow m = false.
Proof.
  unfold float_overflow. rewrite !bool_decide_eq_false. lia.
Qed.

#[global] Instance binary64 : Double float := {|
  dbl_add := PrimFloat.add;
  dbl_sub := PrimFloat.sub;
  dbl_mul := PrimFloat.mul;
  dbl_div := PrimFloat.div;
  dbl_ltb := PrimFloat.ltb;
  dbl_leb := PrimFloat.leb;
  dbl_of_Z := float_of_Z;
  dbl_overflow := float_overflow;
  dbl_add_comm := float_add_comm;
  dbl_overflow_long := float_overflow_long;
  dbl_overflow_below := float_overflow_below
|}.

(** Exact arithmetic: the rationals, where every integer is converted. *)
#[global] Instance exact_arithmetic : Double Qc := {|
  dbl_add := Qcplus;
  dbl_sub := Qcminus;
  dbl_mul := Qcmult;
  dbl_div := Qcdiv;
  dbl_ltb := λ x y, bool_decide (x < y)%Qc;
  dbl_leb := λ x y, bool_decide (x ≤ y)%Qc;
  dbl_of_Z := λ n, Q2Qc (inject_Z n);
  dbl_overflow := λ _, false;
  dbl_add_comm := Qcplus_comm;
  dbl_overflow_long := λ _ _, eq_refl;
  dbl_overflow_below := λ _ _ _ _, eq_refl
|}.

(** ** C integers *)

Module CInt.

Definition int_min : Z := - 2 ^ 31.
Definition int_max : Z := 2 ^ 31 - 1.

(** The values of C type [int]. *)
Definition is_int (z : Z) : Prop := int_min ≤ z ≤ int_max.

(** Conversion to [int], [unsigned int] and [size_t] (two's complement,
    32-bit [int], 64-bit [size_t]). *)
Definition to_int (z : Z) : Z := (z + 2 ^ 31) `mod` 2 ^ 32 - 2 ^ 31.
Definition to_uint (z : Z) : Z := z `mod` 2 ^ 32.
Definition to_size_t (z : Z) : Z := z `mod` 2 ^ 64.

Definition sizeof_int : Z := 4.
Definition ptrdiff_max : Z := 2 ^ 63 - 1.

(** [for i in range(start, end)] with [cdef unsigned int i]: Cython
    coerces both bounds to the type of the loop variable and counts
    upwards while [i < end]. *)
Definition urange (start end_ : Z) : list Z :=
  seqZ (to_uint start) (to_uint end_ - to_uint start).

Ltac int_range := unfold is_int, int_min, int_max in *; lia.

End CInt.

Import CInt.

(** Python objects handed back by [__getitem__]. *)
Inductive pyobj : Type :=
| PyInt (z : Z)
| PyNone.

(** ** [CyRangeVector] over a [malloc]'ed buffer *)

Module RangeVectorMalloc.

(** A heap block of [int] cells; a cell that was never written holds no
    defined value. The null pointer is [None]. *)
Abbreviation block := (list (option Z)).
Abbreviation pointer := (option block).

(** [malloc(n)]: memory is assumed to suffice for every request up to
    [PTRDIFF_MAX] bytes; a larger request yields the null pointer. *)
Definition malloc (nbytes : Z) : pointer :=
  if decide (nbytes ≤ ptrdiff_max)
  then Some (replicate (Z.to_nat (nbytes `div` sizeof_int)) None)
  else None.

(** [p[idx] = v] *)
Definition store (idx v : Z) (p : pointer) : outcome pointer :=
  match p with
  | None => Undefined
  | Some b =>
      if decide (0 ≤ idx < Z.of_nat (length b))
      then Returns (Some (<[Z.to_nat idx := Some v]> b))
      else Undefined
  end.

(** [p[idx]] *)
Definition load (idx : Z) (p : pointer) : outcome Z :=
  match p with
  | None => Undefined
  | Some b =>
      if decide (0 ≤ idx)
      then match b !! Z.to_nat idx with
           | Some (Some v) => Returns v
           | _ => Undefined
           end
      else Undefined
  end.

Record CyRangeVector : Type := mkCyRangeVector {
  data : pointer;
  size : Z
}.

Definition cinit (start end_ : Z) : outcome CyRangeVector :=
  if decide (start >= end_)
  then Raises (Exception (pretty start +:+ " >= " +:+ pretty end_))
  else
    let size := to_int (end_ - start) in
    let data := malloc (to_size_t (to_size_t size * sizeof_int)) in
    data ← for_each (urange start end_)
              (λ i data, store (to_uint (i - to_uint start)) (to_int i) data)
              data;
    mret (mkCyRangeVector data size).

Definition getitem (self : CyRangeVector) (i : Z) : outcome pyobj :=
  if decide (i >= size self ∨ i < 0)
  then mret (PyInt (-1))
  else v ← load i (data self); mret (PyInt v).

End RangeVectorMalloc.

(** ** [CyRangeVector] over a C++ [vector[int]] *)

Module RangeVectorCpp.

Record CyRangeVector : Type := mkCyRangeVector {
  data : list Z
}.

Definition push_back (v : Z) (d : list Z) : list Z := d ++ [v].

Definition cinit (start end_ : Z) : outcome CyRangeVector :=
  if decide (start >= end_)
  then Raises (Exception (pretty start +:+ " >= " +:+ pretty end_))
  else
    data ← for_each (urange start end_)
              (λ i data, mret (push_back (to_int i) data))
              [];
    mret (mkCyRangeVector data).

(** [i >= self.data.size()] compares an [int] with a [size_t]: the
    [int] is converted to [size_t] first. *)
Definition getitem (self : CyRangeVector) (i : Z) : outcome pyobj :=
  if decide (to_size_t i >= Z.of_nat (length (data self)) ∨ i < 0)
  then mret PyNone
  else match data self !! Z.to_nat (to_size_t i) with
       | Some v => mret (PyInt v)
       | None => Undefined
       end.

End RangeVectorCpp.


(** ** Monte Carlo estimate of pi *)

Module MonteCarlo.

(** The generator behind [random()]: the sequence of numbers it is going
    to produce, and how many of them were consumed. *)
Record rng (D : Type) : Type := mk_rng {
  draws : nat → D;
  pos : nat
}.
Arguments mk_rng {D} _ _.
Arguments draws {D} _ _.
Arguments pos {D} _.

Section PiMc.
Context `{Double D}.

Definition random (g : rng D) : D * rng D :=
  (draws g (pos g), mk_rng (draws g) (S (pos g))).

(** The conversion of a Python [int] that [float * int] and
    [float / int] start with. *)
Definition float_of_int (n : Z) : outcome D :=
  if dbl_overflow n then Raises OverflowError else Returns (dbl_of_Z n).

(** [a * c] for a float [a] and an int [c]. *)
Definition mul_int (a : D) (c : Z) : outcome D :=
  b ← float_of_int c; Returns (a * b)%D.

(** [a / n] for a float [a] and an int [n]: [n] is converted, and a
    zero divisor raises. The converted divisor is zero for the int [0]
    alone. *)
Definition true_div (a : D) (n : Z) : outcome D :=
  b ← float_of_int n;
  if decide (n = 0) then Raises ZeroDivisionError else Returns (a / b)%D.

(** Body of the loop of [pi_mc]; the loop carries [in_circle] and the
    generator. [x ** 2] is the square of [x] rounded once, the product
    [x * x]. *)
Definition pi_mc_body (st : Z * rng D) : Z * rng D :=
  let '(in_circle, g) := st in
  let '(x, g) := random g in
  let '(y, g) := random g in
  if (x * x + y * y <=? dbl_of_Z 1)%D then (in_circle + 1, g) else (in_circle, g).

(** [pi_mc(n)]; the result is [4.0 * in_circle / n]. *)
Definition pi_mc (n : Z) (g : rng D) : outcome D * rng D :=
  let in_circle := 0 in
  let '(in_circle, g) :=
    foldl (λ st _, pi_mc_body st) (in_circle, g) (seqZ 0 n) in
  (a ← mul_int (dbl_of_Z 4) in_circle; true_div a n, g).

(** The pairs drawn by a call that starts at position [p] of the
    sequence [d]: pair [i] is [(d (p + 2 i), d (p + 2 i + 1))]. It is
    inside the quarter disc when the test [x ** 2 + y ** 2 <= 1.0] of the
    loop holds of it. *)
Definition inside (d : nat → D) (p i : nat) : Prop :=
  (d (p + 2 * i)%nat * d (p + 2 * i)%nat
   + d (p + 2 * i + 1)%nat * d (p + 2 * i + 1)%nat <=? dbl_of_Z 1)%D = true.

#[global] Instance inside_dec d p i : Decision (inside d p i).
Proof. unfold inside. apply _. Defined.

(** How many of the first [n] pairs are inside. *)
Definition count_inside (d : nat → D) (p n : nat) : nat :=
  length (filter (inside d p) (seq 0 n)).

End PiMc.

End MonteCarlo.

(** ** Two-dimensional arrays *)

Module NdArray.

Record ndarray (A : Type) : Type := mk_ndarray {
  shape : nat * nat;
  rows : list (list A)
}.
Arguments mk_ndarray {A} shape rows.
Arguments shape {A} _.
Arguments rows {A} _.

(** The rows of an array agree with its shape. *)
Definition well_formed {A} (a : ndarray A) : Prop :=
  length (rows a) = (shape a).1 ∧ Forall (λ r, length r = (shape a).2) (rows a).

#[global] Instance well_formed_dec {A} (a : ndarray A) : Decision (well_formed a).
Proof. unfold well_formed. apply _. Defined.

Definition lookup2 {A} (a : ndarray A) (i j : nat) : option A :=
  rows a !! i ≫= (.!! j).

Definition update2 {A} (a : ndarray A) (i j : nat) (v : A) : option (ndarray A) :=
  r ← rows a !! i;
  guard (j < length r)%nat;;
  Some (mk_ndarray (shape a) (<[i := <[j := v]> r]> (rows a))).

(** [a[i][j]] and [a[i][j] = v] in the interpreter: an index past the end
    raises [IndexError]. *)
Definition getitem {A} (a : ndarray A) (i j : nat) : outcome A :=
  match lookup2 a i j with
  | Some v => Returns v
  | None => Raises IndexError
  end.

Definition setitem {A} (a : ndarray A) (i j : nat) (v : A) : outcome (ndarray A) :=
  match update2 a i j v with
  | Some a' => Returns a'
  | None => Raises IndexError
  end.

(** The same accesses in compiled code without bounds checks (Numba's
    nopython mode, Cython under [boundscheck(False)]): an index past the
    end is undefined behaviour. *)
Definition getitem_unchecked {A} (a : ndarray A) (i j : nat) : outcome A :=
  match lookup2 a i j with
  | Some v => Returns v
  | None => Undefined
  end.

Definition setitem_unchecked {A} (a : ndarray A) (i j : nat) (v : A)
  : outcome (ndarray A) :=
  match update2 a i j v with
  | Some a' => Returns a'
  | None => Undefined
  end.

(** The array of shape [(n0, n1)] whose entry [(i, j)] is [f i j]. *)
Definition tabulate {A} (n0 n1 : nat) (f : nat → nat → A) : ndarray A :=
  mk_ndarray (n0, n1) (fmap (M:=list) (λ i, fmap (M:=list) (f i) (seq 0 n1)) (seq 0 n0)).

(** [np.zeros(shape)], and [np.empty(shape)], whose entries are whatever
    the allocated memory held ([junk]). *)
Definition np_zeros (shape : nat * nat) : ndarray Qc :=
  mk_ndarray shape (replicate shape.1 (replicate shape.2 0%Qc)).

Definition np_empty (junk : nat → nat → Qc) (shape : nat * nat) : ndarray Qc :=
  tabulate shape.1 shape.2 junk.

(** [f 0 + f 1 + ... + f (n-1)], added from the left. *)
Definition sum_range (n : nat) (f : nat → Qc) : Qc :=
  foldl (λ acc k, acc + f k)%Qc 0%Qc (seq 0 n).

(** *** The NumPy operations used by [euclidean_numpy] *)

(** Entry [(i, j)] of an array, [0] outside of it. *)
Definition entry (a : ndarray Qc) (i j : nat) : Qc :=
  default 0%Qc (lookup2 a i j).

(** [np.einsum('ij,ij->i', a, b)] *)
Definition einsum_ij_ij_i (a b : ndarray Qc) : outcome (list Qc) :=
  if decide (shape a = shape b)
  then Returns ((λ i, sum_range (shape a).2 (λ j, entry a i j * entry b i j)%Qc)
                  <$> seq 0 (shape a).1)
  else Raises ValueError.

(** [v[:, np.newaxis]] *)
Definition newaxis (v : list Qc) : ndarray Qc :=
  mk_ndarray (length v, 1%nat) (fmap (M:=list) (λ c, c :: []) v).

(** [a.T] *)
Definition transpose (a : ndarray Qc) : ndarray Qc :=
  tabulate (shape a).2 (shape a).1 (λ i j, entry a j i).

(** [np.dot(a, b)] *)
Definition np_dot (a b : ndarray Qc) : outcome (ndarray Qc) :=
  if decide ((shape a).2 = (shape b).1)
  then Returns (tabulate (shape a).1 (shape b).2
                  (λ i j, sum_range (shape a).2 (λ k, entry a i k * entry b k j)%Qc))
  else Raises ValueError.

(** Broadcasting of two extents, and the index an output index reads
    from along an axis of extent [n]. *)
Definition broadcast_dim (n m : nat) : option nat :=
  if decide (n = m) then Some n
  else if decide (n = 1%nat) then Some m
  else if decide (m = 1%nat) then Some n
  else None.

Definition broadcast_index (n i : nat) : nat :=
  if decide (n = 1%nat) then 0%nat else i.

(** [a op b] elementwise, with broadcasting. *)
Definition broadcast (op : Qc → Qc → Qc) (a b : ndarray Qc) : outcome (ndarray Qc) :=
  match broadcast_dim (shape a).1 (shape b).1,
        broadcast_dim (shape a).2 (shape b).2 with
  | Some n0, Some n1 =>
      Returns (tabulate n0 n1 (λ i j,
        op (entry a (broadcast_index (shape a).1 i) (broadcast_index (shape a).2 j))
           (entry b (broadcast_index (shape b).1 i) (broadcast_index (shape b).2 j))))
  | _, _ => Raises ValueError
  end.

(** [f(a)] elementwise: [c * a] for a scalar [c], [np.abs(a)]. *)
Definition map_array (f : Qc → Qc) (a : ndarray Qc) : ndarray Qc :=
  mk_ndarray (shape a) (fmap (M:=list) (fmap (M:=list) f) (rows a)).

Definition np_abs (a : ndarray Qc) : ndarray Qc := map_array Qcabs a.

(** The squared Euclidean and the cityblock distance of row [i] of [x]
    and row [j] of [y], over [m] features. *)
Definition sq_dist (m : nat) (x y : ndarray Qc) (i j : nat) : Qc :=
  sum_range m (λ k, (entry x i k - entry y j k) ^ 2)%Qc.

Definition abs_dist (m : nat) (x y : ndarray Qc) (i j : nat) : Qc :=
  sum_range m (λ k, Qcabs (entry x i k - entry y j k)).

End NdArray.

Import NdArray.

(** ** Distance matrices *)

Module Euclidean.

(** [numba.prange] is [range] under [numba.jit(nopython=True)] without
    [parallel=True]. *)
Definition euclidean_numba1 (x y : ndarray Qc) : outcome (ndarray Qc) :=
  let '(num_samples, num_feat) := shape x in
  let dist_matrix := np_zeros (num_samples, num_samples) in
  for_each (seq 0 num_samples) (λ i dist_matrix,
    for_each (seq 0 num_samples) (λ j dist_matrix,
      r ← for_each (seq 0 num_feat) (λ k r,
             xik ← getitem_unchecked x i k;
             yjk ← getitem_unchecked y j k;
             mret (r + (xik - yjk) ^ 2)%Qc) 0%Qc;
      setitem_unchecked dist_matrix i j r) dist_matrix) dist_matrix.

Definition euclidean_numpy (x y : ndarray Qc) : outcome (ndarray Qc) :=
  x2 ← einsum_ij_ij_i x x;
  let x2 := newaxis x2 in
  y2 ← einsum_ij_ij_i y y;
  let y2 := transpose (newaxis y2) in
  xy ← np_dot x (transpose y);
  s ← broadcast Qcplus x2 y2;
  d ← broadcast Qcminus s (map_array (Qcmult (Q2Qc 2)) xy);
  mret (np_abs d).

End Euclidean.

Module Cityblock.

Section Kernels.
(** What the memory handed out by [np.empty] holds. *)
Variable junk : nat → nat → Qc.

Definition cityblock_python (x y : ndarray Qc) : outcome (ndarray Qc) :=
  let '(num_samples, num_feat) := shape x in
  let dist_matrix := np_empty junk (num_samples, num_samples) in
  for_each (seq 0 num_samples) (λ i dist_matrix,
    for_each (seq 0 num_samples) (λ j dist_matrix,
      r ← for_each (seq 0 num_feat) (λ k r,
             xik ← getitem x i k;
             yjk ← getitem y j k;
             mret (r + Qcabs (xik - yjk))%Qc) 0%Qc;
      setitem dist_matrix i j r) dist_matrix) dist_matrix.

Definition cityblock_numba1 (x y : ndarray Qc) : outcome (ndarray Qc) :=
  let '(num_samples, num_feat) := shape x in
  let dist_matrix := np_empty junk (num_samples, num_samples) in
  for_each (seq 0 num_samples) (λ i dist_matrix,
    for_each (seq 0 num_samples) (λ j dist_matrix,
      r ← for_each (seq 0 num_feat) (λ k r,
             xik ← getitem_unchecked x i k;
             yjk ← getitem_unchecked y j k;
             mret (r + Qcabs (xik - yjk))%Qc) 0%Qc;
      setitem_unchecked dist_matrix i j r) dist_matrix) dist_matrix.

End Kernels.

End Cityblock.

(** ** Julia sets *)

Module Julia.

(** The variables [x], [y], [k] of one pixel. *)
Record pixel (D : Type) : Type := mk_pixel {
  px : D;
  py : D;
  pk : Z
}.
Arguments mk_pixel {D} _ _ _.
Arguments px {D} _.
Arguments py {D} _.
Arguments pk {D} _.

Section Arithmetic.
Context `{Double D}.

Section Kernel.
Variables (cx cy : D) (iter_max : Z) (radius2 : D).

(** [x * x + y * y < radius2 and k < iter_max] *)
Definition julia_cond (s : pixel D) : bool :=
  (px s * px s + py s * py s <? radius2)%D
  && bool_decide (pk s < iter_max).

(** [x, y = x * x - y * y + cx, 2.0 * x * y + cy; k = k + 1]. The
    increment cannot overflow: the condition gives [k < iter_max], and
    [iter_max] is an [int]. *)
Definition julia_body (s : pixel D) : pixel D :=
  mk_pixel (px s * px s - py s * py s + cx)%D
           (dbl_of_Z 2 * px s * py s + cy)%D
           (pk s + 1).

Definition julia_measure (s : pixel D) : nat := Z.to_nat (iter_max - pk s).

Lemma julia_decreases (s : pixel D) :
  julia_cond s = true → (julia_measure (julia_body s) < julia_measure s)%nat.
Proof.
  unfold julia_cond, julia_measure. intros Hc.
  apply andb_true_iff in Hc as [_ Hc]. apply bool_decide_eq_true in Hc.
  simpl. lia.
Qed.

Definition julia_while (s : pixel D) : pixel D :=
  while julia_cond julia_body julia_measure julia_decreases s.

(** [ny] and [nx] are C [int]s: the extents of [X] are converted on
    assignment. *)
Definition julia_set_cython (X Y : ndarray D) (julia : ndarray Z)
  : outcome (ndarray Z) :=
  let ny := to_int (Z.of_nat (shape X).1) in
  let nx := to_int (Z.of_nat (shape X).2) in
  for_each (seqZ 0 ny) (λ i julia,
    for_each (seqZ 0 nx) (λ j julia,
      x ← getitem_unchecked X (Z.to_nat i) (Z.to_nat j);
      y ← getitem_unchecked Y (Z.to_nat i) (Z.to_nat j);
      let k := 0 in
      let s := julia_while (mk_pixel x y k) in
      setitem_unchecked julia (Z.to_nat i) (Z.to_nat j) (pk s)) julia) julia.

End Kernel.

(** Entry [(i, j)] of a grid, [0.0] outside of it. *)
Definition grid_entry (a : ndarray D) (i j : nat) : D :=
  default (dbl_of_Z 0) (lookup2 a i j).

(** The recurrence of the kernel: the [k]-th iterate from [(x0, y0)],
    computed as the kernel computes it. *)
Fixpoint iterate (cx cy : D) (k : nat) (p : D * D) : D * D :=
  match k with
  | O => p
  | S k =>
      let '(x, y) := iterate cx cy k p in
      (x * x - y * y + cx, dbl_of_Z 2 * x * y + cy)%D
  end.

(** A point has left the disc of squared radius [radius2] when the test
    [x * x + y * y < radius2] of the loop fails of it. For numbers that is
    [x * x + y * y >= radius2]; a NaN fails the test too. *)
Definition escaped (radius2 : D) (p : D * D) : Prop :=
  (p.1 * p.1 + p.2 * p.2 <? radius2)%D = false.

(** [x * x + y * y >= radius2], which no NaN satisfies. *)
Definition reaches (radius2 : D) (p : D * D) : Prop :=
  (radius2 <=? p.1 * p.1 + p.2 * p.2)%D = true.

(** The count a cell is meant to hold: [v] is the least [k] at which the
    iterates have left the disc ([left]), capped at [cap] ([v = cap] when
    no [k < cap] is such). *)
Definition escape_count (left : D * D → Prop) (cx cy : D) (cap : Z)
    (x0 y0 : D) (v : Z) : Prop :=
  (∃ k : nat,
      Z.of_nat k < cap
      ∧ left (iterate cx cy k (x0, y0))
      ∧ (∀ k' : nat, (k' < k)%nat → ¬ left (iterate cx cy k' (x0, y0)))
      ∧ v = Z.of_nat k)
  ∨ ((∀ k : nat, Z.of_nat k < cap → ¬ left (iterate cx cy k (x0, y0)))
     ∧ v = cap).

(** The invariant of the [while] loop for the pixel that starts at
    [(x0, y0)]: after [n] passes the variables hold [k = n] and the [n]-th
    iterate, and no earlier iterate has escaped. *)
Definition julia_invariant (cx cy : D) (iter_max : Z) (radius2 : D)
    (x0 y0 : D) (s : pixel D) : Prop :=
  ∃ n : nat,
    pk s = Z.of_nat n
    ∧ (px s, py s) = iterate cx cy n (x0, y0)
    ∧ (Z.of_nat n ≤ iter_max ∨ n = 0%nat)
    ∧ ∀ k' : nat, (k' < n)%nat → ¬ escaped radius2 (iterate cx cy k' (x0, y0)).

End Arithmetic.

End Julia.

(** ** Sample inputs *)

Definition of_Z (z : Z) : Qc := Q2Qc (inject_Z z).

Definition matrix_of (sh : nat * nat) (l : list (list Z)) : ndarray Qc :=
  mk_ndarray sh (fmap (M:=list) (fmap (M:=list) of_Z) l).

Definition sample_x : ndarray Qc := matrix_of (2%nat, 3%nat) [[1; 2; 3]; [4; 5; 6]].
Definition sample_y : ndarray Qc := matrix_of (2%nat, 3%nat) [[0; 2; 5]; [1; 1; 1]].

Definition sample_X : ndarray Qc := matrix_of (2%nat, 2%nat) [[0; 1]; [2; 3]].
Definition sample_Y : ndarray Qc := matrix_of (2%nat, 2%nat) [[0; 1]; [0; 0]].
Definition sample_julia : ndarray Z := mk_ndarray (2%nat, 2%nat) [[9; 9]; [9; 9]].
Definition sample_julia' : ndarray Z := mk_ndarray (2%nat, 2%nat) [[1; 2]; [3; 4]].

(** A generator that produces 0, 1/3, 2/3, 1, 0, 1/3, ... *)
Definition thirds : MonteCarlo.rng Qc :=
  MonteCarlo.mk_rng (λ i, Q2Qc (Z.of_nat (i `mod` 4) # 3)) 0.

(** Doubles: two grids for the Julia kernels, and a generator that
    produces 0.0, 1/3, 2/3, 1.0, 0.0, ... rounded to doubles. *)
Definition grid_of (sh : nat * nat) (l : list (list Z)) : ndarray float :=
  mk_ndarray sh (fmap (M:=list) (fmap (M:=list) float_of_Z) l).

Definition grid_X : ndarray float := grid_of (2%nat, 2%nat) [[0; 1]; [2; 3]].
Definition grid_Y : ndarray float := grid_of (2%nat, 2%nat) [[0; 1]; [0; 0]].

Definition float_thirds : MonteCarlo.rng float :=
  MonteCarlo.mk_rng
    (λ i, PrimFloat.div (float_of_Z (Z.of_nat (i `mod` 4))) (float_of_Z 3)) 0.

(** A generator that keeps drawing the pair [(1 - 2^-53, 2^-26)]: the
    sum of the squares is above 1, and rounds to 1.0. *)
Definition boundary_draws : MonteCarlo.rng float :=
  MonteCarlo.mk_rng
    (λ i, if Nat.even i then 0x1.fffffffffffffp-1%float else 0x1p-26%float) 0.
(** ** Sums over memory views *)

Module MemoryViews.

(** The sum of a list, as [x.sum()] gives it. *)
Definition sum_list (l : list Qc) : Qc := foldr Qcplus 0%Qc l.

(** [x[i]] on a one-dimensional memory view under Cython's defaults
    ([boundscheck] and [wraparound] on): a negative index counts from the
    end, and an index outside the view raises [IndexError]. *)
Definition getitem1 (x : list Qc) (i : Z) : outcome Qc :=
  let i := if decide (i < 0) then i + Z.of_nat (length x) else i in
  if decide (0 ≤ i)
  then match x !! Z.to_nat i with
       | Some v => Returns v
       | None => Raises IndexError
       end
  else Raises IndexError.

(** [x[i, j]] on a two-dimensional memory view under the same defaults. *)
Definition getitem2 (x : ndarray Qc) (i j : Z) : outcome Qc :=
  let i := if decide (i < 0) then i + Z.of_nat (shape x).1 else i in
  let j := if decide (j < 0) then j + Z.of_nat (shape x).2 else j in
  if decide (0 ≤ i < Z.of_nat (shape x).1 ∧ 0 ≤ j < Z.of_nat (shape x).2)
  then match lookup2 x (Z.to_nat i) (Z.to_nat j) with
       | Some v => Returns v
       | None => Raises IndexError
       end
  else Raises IndexError.

Definition my_sum (x : list Qc) : outcome Qc :=
  let n := to_int (Z.of_nat (length x)) in
  let s := 0%Qc in
  for_each (seqZ 0 n) (λ i s, v ← getitem1 x i; mret (s + v)%Qc) s.

Definition my_sum2d (x : ndarray Qc) : outcome Qc :=
  let rows := to_int (Z.of_nat (shape x).1) in
  let columns := to_int (Z.of_nat (shape x).2) in
  let s := 0%Qc in
  for_each (seqZ 0 rows) (λ i s,
    for_each (seqZ 0 columns) (λ j s,
      v ← getitem2 x i j; mret (s + v)%Qc) s) s.

(** The [cpdef] variant under [wraparound(False)] and
    [boundscheck(False)]. *)
Definition my_sum2d_unchecked (x : ndarray Qc) : outcome Qc :=
  let rows := to_int (Z.of_nat (shape x).1) in
  let columns := to_int (Z.of_nat (shape x).2) in
  let s := 0%Qc in
  for_each (seqZ 0 rows) (λ i s,
    for_each (seqZ 0 columns) (λ j s,
      v ← getitem_unchecked x (Z.to_nat i) (Z.to_nat j); mret (s + v)%Qc) s) s.

End MemoryViews.

(** ** The distance kernels written with NumPy row operations *)

Module RowKernels.

(** [a[i]] in Numba's nopython mode: a row of the array, not
    bounds-checked. *)
Definition row_unchecked (a : ndarray Qc) (i : nat) : outcome (list Qc) :=
  match rows a !! i with
  | Some r => Returns r
  | None => Undefined
  end.

(** [u op v] on one-dimensional arrays: elementwise when the lengths
    agree, a one-element array is stretched to the other's length, any
    other pair of lengths is a [ValueError]. *)
Definition broadcast1 (op : Qc → Qc → Qc) (u v : list Qc) : outcome (list Qc) :=
  if decide (length u = length v) then Returns (zip_with op u v)
  else match u, v with
       | [a], _ => Returns (op a <$> v)
       | _, [b] => Returns ((λ a, op a b) <$> u)
       | _, _ => Raises ValueError
       end.

(** [v.sum()] and [np.linalg.norm(v, 1)]. *)
Definition np_sum (v : list Qc) : Qc := foldl Qcplus 0%Qc v.
Definition norm1 (v : list Qc) : Qc := np_sum (Qcabs <$> v).

Definition euclidean_numba2 (x y : ndarray Qc) : outcome (ndarray Qc) :=
  let '(num_samples, num_feat) := shape x in
  let dist_matrix := np_zeros (num_samples, num_samples) in
  for_each (seq 0 num_samples) (λ i dist_matrix,
    for_each (seq 0 num_samples) (λ j dist_matrix,
      xi ← row_unchecked x i;
      yj ← row_unchecked y j;
      d ← broadcast1 Qcminus xi yj;
      setitem_unchecked dist_matrix i j (np_sum ((λ a, a ^ 2)%Qc <$> d)))
      dist_matrix) dist_matrix.

Section Kernels.
Variable junk : nat → nat → Qc.

Definition cityblock_numba2 (x y : ndarray Qc) : outcome (ndarray Qc) :=
  let '(num_samples, num_feat) := shape x in
  let dist_matrix := np_empty junk (num_samples, num_samples) in
  for_each (seq 0 num_samples) (λ i dist_matrix,
    for_each (seq 0 num_samples) (λ j dist_matrix,
      xi ← row_unchecked x i;
      yj ← row_unchecked y j;
      d ← broadcast1 Qcminus xi yj;
      setitem_unchecked dist_matrix i j (norm1 d))
      dist_matrix) dist_matrix.

End Kernels.

End RowKernels.

(** ** [cy_range] *)

Module CyRange.

(** [cpdef vector[int] cy_range(int start, int end)]; the returned
    vector reaches Python as a list. *)
Definition cy_range (start end_ : Z) : outcome (list Z) :=
  let v := [] in
  for_each (urange start end_)
    (λ i v, mret (RangeVectorCpp.push_back (to_int i) v)) v.

(** [list(range(start, end))] of Python. *)
Definition py_range (start end_ : Z) : list Z := seqZ start (end_ - start).

End CyRange.

(** ** Rectangles *)

Module Rectangles.

Import MonteCarlo.

Record CyRectangle : Type := mkCyRectangle {
  x : Qc;
  y : Qc
}.

Definition area (self : CyRectangle) : Qc := (x self * y self)%Qc.

Definition perimeter (self : CyRectangle) : Qc :=
  (Q2Qc 2 * (x self + y self))%Qc.

Record CyRectangles : Type := mkCyRectangles {
  rectangles : list CyRectangle
}.

(** Body of the loop of [CyRectangles.__cinit__]: the list grows by
    [CyRectangle(random(), random())]. *)
Definition append_random (st : list CyRectangle * rng Qc)
  : list CyRectangle * rng Qc :=
  let '(rectangles, g) := st in
  let '(a, g) := random g in
  let '(b, g) := random g in
  (rectangles ++ [mkCyRectangle a b], g).

(** [__cinit__(self, int n)] with [cdef unsigned int i]: the bound [n]
    of [range(n)] is converted to the unsigned type of the counter. *)
Definition cinit (n : Z) (g : rng Qc) : CyRectangles * rng Qc :=
  let '(rectangles, g) :=
    foldl (λ st _, append_random st) ([], g) (urange 0 n) in
  (mkCyRectangles rectangles, g).

Definition total_area (self : CyRectangles) : Qc :=
  foldl (λ area rect, area + Rectangles.area rect)%Qc 0%Qc (rectangles self).

(** The rectangle made of the [i]-th pair drawn from position [p]. *)
Definition drawn (d : nat → Qc) (p i : nat) : CyRectangle :=
  mkCyRectangle (d (p + 2 * i)%nat) (d (p + 2 * i + 1)%nat).

End Rectangles.

(** ** The compiled variants of [pi_mc] *)

Module MonteCarloCython.

Import MonteCarlo.

(** Conversion to a 64-bit [long]. *)
Definition to_long (z : Z) : Z := (z + 2 ^ 63) `mod` 2 ^ 64 - 2 ^ 63.

Section Variants.
Context `{Double D}.

(** [a / n] for a C [double] [a] and a C [int] [n]: [n] is converted by
    the hardware, and Cython checks the divisor. *)
Definition c_div (a : D) (n : Z) : outcome D :=
  if decide (n = 0) then Raises ZeroDivisionError
  else Returns (a / dbl_of_Z n)%D.

(** [def pi_mc(int n=1000)] with [cdef int in_circle, i] and
    [cdef double x, y]: the counter is a C [int], and the result
    [4.0 * in_circle / n] is computed in C. [x ** 2] is the product
    [x * x], as in [MonteCarlo.pi_mc_body]. *)
Definition pi_mc_body (st : Z * rng D) : Z * rng D :=
  let '(in_circle, g) := st in
  let '(x, g) := random g in
  let '(y, g) := random g in
  if (x * x + y * y <=? dbl_of_Z 1)%D
  then (to_int (in_circle + 1), g) else (in_circle, g).

Definition pi_mc (n : Z) (g : rng D) : outcome D * rng D :=
  let in_circle := 0 in
  let '(in_circle, g) :=
    foldl (λ st _, pi_mc_body st) (in_circle, g) (seqZ 0 n) in
  (c_div (dbl_of_Z 4 * dbl_of_Z in_circle)%D n, g).

(** [cdef inline double my_rand()] *)
Definition my_rand (g : rng D) : D * rng D := random g.

(** [pi_mc_inferred] under [infer_types(True)]: [in_circle], assigned
    [0] and [in_circle + 1], is given the C type [long]; [n] stays a
    Python object, so [4.0 * in_circle] is a C product and the division
    by [n] is Python's. *)
Definition pi_mc_inferred_body (st : Z * rng D) : Z * rng D :=
  let '(in_circle, g) := st in
  let '(x, g) := my_rand g in
  let '(y, g) := my_rand g in
  if (x * x + y * y <=? dbl_of_Z 1)%D
  then (to_long (in_circle + 1), g) else (in_circle, g).

Definition pi_mc_inferred (n : Z) (g : rng D) : outcome D * rng D :=
  let in_circle := 0 in
  let '(in_circle, g) :=
    foldl (λ st _, pi_mc_inferred_body st) (in_circle, g) (seqZ 0 n) in
  (true_div (dbl_of_Z 4 * dbl_of_Z in_circle)%D n, g).




End Variants.

End MonteCarloCython.

(** ** The parallel Julia kernels *)

Module JuliaParallel.

Import Julia.

Section Kernel.
Context `{Double D}.
Variables (cx cy : D) (iter_max : Z) (radius2 : D).


End Kernel.

End JuliaParallel.

(** ** Further sample inputs *)

Definition sample_column : ndarray Qc := matrix_of (2%nat, 1%nat) [[1]; [2]].

(** * Properties *)

(** ** Loops and C integers *)

Lemma for_each_app {A S} (l1 l2 : list A) (body : A → S → outcome S) s :
  for_each (l1 ++ l2) body s = s' ← for_each l1 body s; for_each l2 body s'.
Proof.
  revert s. induction l1 as [|a l1 IH]; intros s; simpl; [done|].
  destruct (body a s) as [s'| |]; simpl; auto.
Qed.

Lemma for_each_ext {A S} (l : list A) (body body' : A → S → outcome S) s :
  (∀ a s, body a s = body' a s) → for_each l body s = for_each l body' s.
Proof.
  intros Hext. revert s. induction l as [|a l IH]; intros s; simpl; [done|].
  rewrite Hext. destruct (body' a s); simpl; auto.
Qed.

(** [for i in range(n)] over a C integer counter visits [0, ..., n-1]. *)
Lemma for_each_seqZ {S} (n : nat) (body : Z → S → outcome S) s :
  for_each (seqZ 0 (Z.of_nat n)) body s
  = for_each (seq 0 n) (λ i, body (Z.of_nat i)) s.
Proof.
  induction n as [|n IH]; [done|].
  rewrite seqZ_S, seq_S, !for_each_app, IH. done.
Qed.

Lemma to_int_id z : is_int z → to_int z = z.
Proof.
  intros H. unfold to_int. rewrite Z.mod_small; int_range.
Qed.

Lemma to_uint_nonneg z : 0 ≤ z < 2 ^ 32 → to_uint z = z.
Proof. intros H. unfold to_uint. rewrite Z.mod_small; lia. Qed.

Lemma to_uint_neg z : - 2 ^ 32 ≤ z < 0 → to_uint z = z + 2 ^ 32.
Proof.
  intros H. unfold to_uint.
  rewrite <- (Z.mod_add z 1 (2 ^ 32)) by lia.
  rewrite Z.mod_small; lia.
Qed.

Lemma to_uint_range z : 0 ≤ to_uint z < 2 ^ 32.
Proof. unfold to_uint. apply Z.mod_pos_bound. lia. Qed.

(** ** Sanity checks of [CyRangeVector] *)

Example cinit_malloc_10_13 :
  RangeVectorMalloc.cinit 10 13
  = Returns (RangeVectorMalloc.mkCyRangeVector (Some [Some 10; Some 11; Some 12]) 3).
Proof. vm_compute. reflexivity. Qed.

Example cinit_cpp_1_4 :
  RangeVectorCpp.cinit 1 4 = Returns (RangeVectorCpp.mkCyRangeVector [1; 2; 3]).
Proof. vm_compute. reflexivity. Qed.

Example cinit_malloc_5_5 :
  RangeVectorMalloc.cinit 5 5 = Raises (Exception "5 >= 5").
Proof. vm_compute. reflexivity. Qed.

(** The notebook's own use of the C++ variant: [v = CyRangeVector(1, 20)],
    [v[1]]. *)
Example notebook_vector :
  (v ← RangeVectorCpp.cinit 1 20; RangeVectorCpp.getitem v 1) = Returns (PyInt 2).
Proof. vm_compute. reflexivity. Qed.

(** ** [CyRangeVector] *)

Lemma is_int_bounds z : is_int z → - 2 ^ 31 ≤ z ≤ 2 ^ 31 - 1.
Proof. int_range. Qed.

(** The unsigned loop of [__cinit__] runs over nothing when [start] is
    negative and [end] is not, and over [end - start] values otherwise. *)
Lemma urange_crossing start end_ :
  is_int start → is_int end_ → start < 0 ≤ end_ → urange start end_ = [].
Proof.
  intros Hs%is_int_bounds He%is_int_bounds H. unfold urange.
  rewrite (to_uint_neg start), (to_uint_nonneg end_) by lia.
  apply seqZ_nil. lia.
Qed.

Lemma urange_same_sign start end_ :
  is_int start → is_int end_ → start < end_ → ¬ (start < 0 ≤ end_) →
  urange start end_ = seqZ (to_uint start) (end_ - start).
Proof.
  intros Hs%is_int_bounds He%is_int_bounds Hlt Hx. unfold urange.
  destruct (decide (0 ≤ start)).
  - rewrite (to_uint_nonneg start), (to_uint_nonneg end_) by lia. done.
  - rewrite (to_uint_neg start), (to_uint_neg end_) by lia. f_equal. lia.
Qed.

Lemma length_urange start end_ :
  is_int start → is_int end_ → start < end_ →
  Z.of_nat (length (urange start end_)) ≤ end_ - start.
Proof.
  intros Hs He Hlt. destruct (decide (start < 0 ≤ end_)).
  - rewrite urange_crossing by done. simpl. lia.
  - rewrite urange_same_sign by done. rewrite length_seqZ. lia.
Qed.

(** Filling a block of the [malloc] variant: the loop writes the cells
    [0 .. n-1] and leaves the others as they were. *)
Lemma malloc_fill lo (n : nat) (b : RangeVectorMalloc.block) :
  0 ≤ lo → lo + Z.of_nat n ≤ 2 ^ 32 → (n ≤ length b)%nat →
  ∃ b', for_each (seqZ lo (Z.of_nat n))
          (λ i d, RangeVectorMalloc.store (to_uint (i - lo)) (to_int i) d) (Some b)
        = Returns (Some b')
      ∧ length b' = length b
      ∧ (∀ d : nat, (d < n)%nat → b' !! d = Some (Some (to_int (lo + Z.of_nat d))))
      ∧ (∀ d : nat, (n ≤ d)%nat → b' !! d = b !! d).
Proof.
  intros Hlo. induction n as [|n IH]; intros Hhi Hlen.
  - exists b. simpl. split; [done|]. split; [done|]. split; [intros; lia | done].
  - destruct IH as (b1 & Hrun & Hlen1 & Hset & Hrest); [lia | lia |].
    rewrite seqZ_S, for_each_app, Hrun. simpl.
    replace (lo + Z.of_nat n - lo) with (Z.of_nat n) by lia.
    rewrite to_uint_nonneg by lia.
    destruct (decide _) as [_|Hno]; [|lia].
    rewrite Nat2Z.id. exists (<[n := Some (to_int (lo + Z.of_nat n))]> b1).
    split; [done|].
    split; [by rewrite length_insert|]. split.
    + intros d Hd. destruct (decide (d = n)) as [->|Hne].
      * rewrite list_lookup_insert_eq by lia. done.
      * rewrite list_lookup_insert_ne by done. apply Hset. lia.
    + intros d Hd. rewrite list_lookup_insert_ne by lia. apply Hrest. lia.
Qed.

Lemma cpp_fill (l : list Z) (acc : list Z) :
  for_each l (λ i d, mret (RangeVectorCpp.push_back (to_int i) d)) acc
  = Returns (acc ++ (to_int <$> l)).
Proof.
  revert acc. induction l as [|i l IH]; intros acc; simpl.
  - by rewrite app_nil_r.
  - unfold mret, outcome_ret. simpl. rewrite IH. unfold RangeVectorCpp.push_back.
    by rewrite <- app_assoc.
Qed.

(** What [__cinit__] builds in the [malloc] variant when [start < end]. *)
Lemma malloc_cinit_returns start end_ :
  is_int start → is_int end_ → start < end_ →
  ∃ p, RangeVectorMalloc.cinit start end_
       = Returns (RangeVectorMalloc.mkCyRangeVector p (to_int (end_ - start)))
     ∧ (0 ≤ start → ∃ b, p = Some b ∧
          ∀ d : nat, Z.of_nat d < end_ - start → b !! d = Some (Some (start + Z.of_nat d))).
Proof.
  intros Hs He Hlt. unfold RangeVectorMalloc.cinit.
  destruct (decide (start >= end_)) as [|_]; [lia|].
  destruct (decide (start < 0 ≤ end_)) as [Hx|Hx].
  - rewrite urange_crossing by done. simpl. eexists. split; [done|]. intros; lia.
  - rewrite urange_same_sign by done.
    pose proof (is_int_bounds _ Hs). pose proof (is_int_bounds _ He).
    assert (Hsz : to_int (end_ - start) = end_ - start).
    { apply to_int_id. int_range. }
    rewrite Hsz. unfold RangeVectorMalloc.malloc, to_size_t, sizeof_int, ptrdiff_max.
    rewrite (Z.mod_small (end_ - start)) by lia.
    rewrite (Z.mod_small ((end_ - start) * 4)) by lia.
    destruct (decide _) as [_|Hno]; [|lia].
    rewrite Z.div_mul by lia.
    destruct (malloc_fill (to_uint start) (Z.to_nat (end_ - start))
                (replicate (Z.to_nat (end_ - start)) None))
      as (b' & Hrun & Hlen & Hset & _).
    { apply to_uint_range. }
    { pose proof (to_uint_range start).
      destruct (decide (0 ≤ start)).
      - rewrite to_uint_nonneg by lia. lia.
      - rewrite to_uint_neg by lia. lia. }
    { by rewrite length_replicate. }
    rewrite Z2Nat.id in Hrun by lia. rewrite Hrun. simpl.
    eexists. split; [done|]. intros Hnn. exists b'. split; [done|].
    intros d Hd. rewrite Hset by lia.
    rewrite to_uint_nonneg by lia. rewrite to_int_id; [done|].
    int_range.
Qed.

Lemma cpp_cinit_returns start end_ :
  start < end_ →
  RangeVectorCpp.cinit start end_
  = Returns (RangeVectorCpp.mkCyRangeVector (to_int <$> urange start end_)).
Proof.
  intros Hlt. unfold RangeVectorCpp.cinit.
  destruct (decide (start >= end_)) as [|_]; [lia|].
  rewrite cpp_fill. done.
Qed.

(** C6. For C [int] arguments, [__cinit__] raises exactly when
    [start >= end] and builds the object exactly when [start < end], in the
    [malloc]-backed variant and in the C++ [vector] variant alike. *)
Theorem cinit_raises_iff_empty_or_inverted (start end_ : Z) :
  is_int start → is_int end_ →
  ((∃ e, RangeVectorMalloc.cinit start end_ = Raises e) ↔ start >= end_)
  ∧ ((∃ v, RangeVectorMalloc.cinit start end_ = Returns v) ↔ start < end_)
  ∧ ((∃ e, RangeVectorCpp.cinit start end_ = Raises e) ↔ start >= end_)
  ∧ ((∃ v, RangeVectorCpp.cinit start end_ = Returns v) ↔ start < end_).
Proof.
  intros Hs He.
  destruct (decide (start < end_)) as [Hlt|Hge].
  - destruct (malloc_cinit_returns start end_ Hs He Hlt) as (p & Hm & _).
    pose proof (cpp_cinit_returns start end_ Hlt) as Hc.
    rewrite Hm, Hc. repeat split; try (intros [? ?]; discriminate);
      try lia; intros _; eauto.
  - assert (Hm : RangeVectorMalloc.cinit start end_
                 = Raises (Exception (pretty start +:+ " >= " +:+ pretty end_))).
    { unfold RangeVectorMalloc.cinit. destruct (decide (start >= end_)); [done|lia]. }
    assert (Hc : RangeVectorCpp.cinit start end_
                 = Raises (Exception (pretty start +:+ " >= " +:+ pretty end_))).
    { unfold RangeVectorCpp.cinit. destruct (decide (start >= end_)); [done|lia]. }
    rewrite Hm, Hc. repeat split; try (intros [? ?]; discriminate);
      try lia; intros _; eauto.
Qed.

Lemma cinit_raises_iff_empty_or_inverted_witness :
  ((∃ e, RangeVectorMalloc.cinit 7 3 = Raises e) ↔ 7 >= 3)
  ∧ ((∃ v, RangeVectorMalloc.cinit 7 3 = Returns v) ↔ 7 < 3)
  ∧ ((∃ e, RangeVectorCpp.cinit 7 3 = Raises e) ↔ 7 >= 3)
  ∧ ((∃ v, RangeVectorCpp.cinit 7 3 = Returns v) ↔ 7 < 3).
Proof.
  apply (cinit_raises_iff_empty_or_inverted 7 3);
    unfold is_int, int_min, int_max; lia.
Defined.

(** C7. For a [CyRangeVector] built from C [int]s [start < end], every
    [int] index [i] with [i < 0] or [i >= end - start] is answered with the
    sentinel: [-1] by the [malloc]-backed variant, [None] by the C++
    [vector] variant. *)
Theorem getitem_outside_is_sentinel (start end_ i : Z) :
  is_int start → is_int end_ → is_int i → start < end_ →
  i < 0 ∨ i >= end_ - start →
  (∃ v, RangeVectorMalloc.cinit start end_ = Returns v
        ∧ RangeVectorMalloc.getitem v i = Returns (PyInt (-1)))
  ∧ (∃ v, RangeVectorCpp.cinit start end_ = Returns v
          ∧ RangeVectorCpp.getitem v i = Returns PyNone).
Proof.
  intros Hs He Hi Hlt Hout. split.
  - destruct (malloc_cinit_returns start end_ Hs He Hlt) as (p & Hm & _).
    eexists. split; [exact Hm|].
    unfold RangeVectorMalloc.getitem. simpl.
    destruct (decide _) as [_|Hno]; [done|]. exfalso. apply Hno.
    destruct Hout as [Hneg|Hbig]; [lia|]. left.
    apply is_int_bounds in Hi. rewrite to_int_id; [lia|].
    int_range.
  - eexists. split; [by apply cpp_cinit_returns|].
    unfold RangeVectorCpp.getitem. simpl.
    destruct (decide _) as [_|Hno]; [done|]. exfalso. apply Hno.
    destruct Hout as [Hneg|Hbig]; [lia|].
    destruct (decide (i < 0)); [lia|]. left.
    rewrite length_fmap. pose proof (length_urange start end_ Hs He Hlt).
    apply is_int_bounds in Hi. unfold to_size_t. rewrite Z.mod_small; lia.
Qed.

Lemma getitem_outside_is_sentinel_witness :
  (∃ v, RangeVectorMalloc.cinit 10 13 = Returns v
        ∧ RangeVectorMalloc.getitem v 3 = Returns (PyInt (-1)))
  ∧ (∃ v, RangeVectorCpp.cinit 10 13 = Returns v
          ∧ RangeVectorCpp.getitem v 3 = Returns PyNone).
Proof.
  apply (getitem_outside_is_sentinel 10 13 3);
    unfold is_int, int_min, int_max; lia.
Defined.

(** C10. For C [int]s [0 <= start < end] and every index
    [0 <= i < end - start], [__getitem__(i)] is [start + i] in both
    variants: the buffer holds [start, start + 1, ..., end - 1] in order. *)
Theorem getitem_inside_is_start_plus_i (start end_ i : Z) :
  is_int end_ → 0 ≤ start < end_ → 0 ≤ i < end_ - start →
  (∃ v, RangeVectorMalloc.cinit start end_ = Returns v
        ∧ RangeVectorMalloc.getitem v i = Returns (PyInt (start + i)))
  ∧ (∃ v, RangeVectorCpp.cinit start end_ = Returns v
          ∧ RangeVectorCpp.getitem v i = Returns (PyInt (start + i))).
Proof.
  intros He Hse Hi. pose proof (is_int_bounds _ He) as Hb.
  assert (Hs : is_int start) by (int_range).
  assert (Hsz : to_int (end_ - start) = end_ - start).
  { apply to_int_id. int_range. }
  split.
  - destruct (malloc_cinit_returns start end_ Hs He) as (p & Hm & Hp); [lia|].
    destruct Hp as (b & -> & Hb'); [lia|].
    eexists. split; [exact Hm|].
    unfold RangeVectorMalloc.getitem. simpl. rewrite Hsz.
    destruct (decide _) as [Hno|_]; [lia|].
    destruct (decide (0 ≤ i)) as [_|]; [|lia].
    rewrite (Hb' (Z.to_nat i)) by lia. simpl. by rewrite Z2Nat.id by lia.
  - eexists. split; [apply cpp_cinit_returns; lia|].
    unfold RangeVectorCpp.getitem. simpl.
    rewrite urange_same_sign by (done || lia).
    rewrite length_fmap, length_seqZ.
    unfold to_size_t. rewrite (Z.mod_small i) by lia.
    destruct (decide _) as [Hno|_]; [lia|].
    rewrite list_lookup_fmap, lookup_seqZ_lt by lia. simpl.
    rewrite to_uint_nonneg, Z2Nat.id by lia.
    rewrite to_int_id; [done|]. int_range.
Qed.

Lemma getitem_inside_is_start_plus_i_witness :
  (∃ v, RangeVectorMalloc.cinit 10 13 = Returns v
        ∧ RangeVectorMalloc.getitem v 2 = Returns (PyInt (10 + 2)))
  ∧ (∃ v, RangeVectorCpp.cinit 10 13 = Returns v
          ∧ RangeVectorCpp.getitem v 2 = Returns (PyInt (10 + 2))).
Proof.
  apply (getitem_inside_is_start_plus_i 10 13 2);
    unfold is_int, int_min, int_max; lia.
Defined.

(** The hypothesis [0 <= start] of C10 is used: with a negative [start]
    and a non-negative [end] the unsigned loop of [__cinit__] does not
    run, and the buffer of the [malloc] variant stays unwritten. *)
Example cinit_malloc_negative_start :
  RangeVectorMalloc.cinit (-2) 1
  = Returns (RangeVectorMalloc.mkCyRangeVector (Some [None; None; None]) 3).
Proof. vm_compute. reflexivity. Qed.
(** ** Monte Carlo estimate of pi *)

Section PiMcFacts.
Context `{Double D}.

Lemma count_inside_S (d : nat → D) p n :
  MonteCarlo.count_inside d p (S n)
  = (MonteCarlo.count_inside d p n
     + (if decide (MonteCarlo.inside d p n) then 1 else 0))%nat.
Proof.
  unfold MonteCarlo.count_inside. rewrite seq_S, filter_app, length_app. simpl.
  rewrite filter_cons, filter_nil. by destruct (decide _).
Qed.

Lemma count_inside_le (d : nat → D) p m : (MonteCarlo.count_inside d p m ≤ m)%nat.
Proof.
  unfold MonteCarlo.count_inside.
  etrans; [apply length_filter|]. by rewrite length_seq.
Qed.

Lemma pi_mc_body_eq (c : Z) (d : nat → D) (q : nat) :
  MonteCarlo.pi_mc_body (c, MonteCarlo.mk_rng d q)
  = (c + (if (d q * d q + d (q + 1)%nat * d (q + 1)%nat <=? dbl_of_Z 1)%D
          then 1 else 0),
     MonteCarlo.mk_rng d (q + 2)).
Proof.
  unfold MonteCarlo.pi_mc_body, MonteCarlo.random.
  cbv [MonteCarlo.draws MonteCarlo.pos].
  replace (S q) with (q + 1)%nat by lia.
  replace (S (q + 1)) with (q + 2)%nat by lia.
  destruct (_ <=? _)%D; f_equal; lia.
Qed.

(** The loop of [pi_mc] after [m] passes: [2 m] numbers were drawn, and
    [in_circle] grew by the number of pairs inside. *)
Lemma pi_mc_loop (m : nat) (c : Z) (g : MonteCarlo.rng D) :
  foldl (λ st _, MonteCarlo.pi_mc_body st) (c, g) (seqZ 0 (Z.of_nat m))
  = (c + Z.of_nat (MonteCarlo.count_inside (MonteCarlo.draws g) (MonteCarlo.pos g) m),
     MonteCarlo.mk_rng (MonteCarlo.draws g) (MonteCarlo.pos g + 2 * m)).
Proof.
  destruct g as [d p]. cbv [MonteCarlo.draws MonteCarlo.pos].
  induction m as [|m IH].
  - unfold MonteCarlo.count_inside. simpl. f_equal; [lia|]. f_equal. lia.
  - rewrite seqZ_S, foldl_app, IH. cbv [foldl].
    rewrite pi_mc_body_eq, count_inside_S.
    f_equal; [|f_equal; lia].
    destruct (decide (MonteCarlo.inside d p m)) as [Hin|Hin];
      unfold MonteCarlo.inside in Hin.
    + rewrite Hin. lia.
    + apply not_true_is_false in Hin. rewrite Hin. lia.
Qed.

Lemma pi_mc_unfold (n : Z) (g : MonteCarlo.rng D) :
  MonteCarlo.pi_mc n g
  = (a ← MonteCarlo.mul_int (dbl_of_Z 4)
           (Z.of_nat (MonteCarlo.count_inside (MonteCarlo.draws g) (MonteCarlo.pos g)
                        (Z.to_nat n)));
     MonteCarlo.true_div a n,
     MonteCarlo.mk_rng (MonteCarlo.draws g) (MonteCarlo.pos g + 2 * Z.to_nat n)).
Proof.
  unfold MonteCarlo.pi_mc.
  destruct (decide (0 ≤ n)) as [Hn|Hn].
  - rewrite <- (Z2Nat.id n) at 1 by done. rewrite pi_mc_loop.
    by rewrite Z.add_0_l.
  - rewrite seqZ_nil by lia. replace (Z.to_nat n) with 0%nat by lia.
    destruct g as [d p]. unfold MonteCarlo.count_inside. simpl.
    do 2 f_equal. lia.
Qed.

(** The counter of [pi_mc(n)] is converted when [n] is. *)
Lemma count_no_overflow (d : nat → D) (p : nat) (n : Z) :
  dbl_overflow n = false →
  dbl_overflow (Z.of_nat (MonteCarlo.count_inside d p (Z.to_nat n))) = false.
Proof.
  apply dbl_overflow_below.
  pose proof (count_inside_le d p (Z.to_nat n)). lia.
Qed.

(** The result of [pi_mc(n)] when [n] is converted. *)
Lemma pi_mc_result (n : Z) (g : MonteCarlo.rng D) :
  let c := MonteCarlo.count_inside (MonteCarlo.draws g) (MonteCarlo.pos g) (Z.to_nat n) in
  dbl_overflow n = false →
  (MonteCarlo.pi_mc n g).1
  = if decide (n = 0) then Raises ZeroDivisionError
    else Returns (dbl_of_Z 4 * dbl_of_Z (Z.of_nat c) / dbl_of_Z n)%D.
Proof.
  intros c Hn. rewrite pi_mc_unfold. cbn [fst].
  unfold MonteCarlo.mul_int, MonteCarlo.true_div, MonteCarlo.float_of_int.
  fold c. unfold c. rewrite count_no_overflow, Hn by done. reflexivity.
Qed.

(** A call on an [n] that Python cannot convert ends in the
    [OverflowError] of a conversion. *)
Lemma pi_mc_overflow (n : Z) (g : MonteCarlo.rng D) :
  dbl_overflow n = true → (MonteCarlo.pi_mc n g).1 = Raises OverflowError.
Proof.
  intros Hn. rewrite pi_mc_unfold. cbn [fst].
  unfold MonteCarlo.mul_int, MonteCarlo.true_div, MonteCarlo.float_of_int.
  rewrite Hn. by destruct (dbl_overflow (Z.of_nat _)).
Qed.

End PiMcFacts.

(** In binary64 the integers below [2^1024 - 2^970] in magnitude are
    converted. *)
Lemma float_overflow_false (n : Z) :
  Z.abs n < 2 ^ 1024 - 2 ^ 970 → dbl_overflow (D:=float) n = false.
Proof. intros Hn. apply bool_decide_eq_false. lia. Qed.

Lemma float_overflow_true (n : Z) :
  2 ^ 1024 - 2 ^ 970 ≤ Z.abs n → dbl_overflow (D:=float) n = true.
Proof. intros Hn. by apply bool_decide_eq_true. Qed.



Example pi_mc_thirds_count :
  MonteCarlo.count_inside (MonteCarlo.draws thirds) 0 4 = 2%nat.
Proof. vm_compute. reflexivity. Qed.

Example pi_mc_float_thirds :
  (MonteCarlo.pi_mc 4 float_thirds).1 = Returns 2%float.
Proof. vm_compute. reflexivity. Qed.

(** The test is the test of the doubles: of the pair
    [(1 - 2^-53, 2^-26)] the sum of the squares is above 1 and rounds
    to [1.0], so the pair is counted. *)
Example pi_mc_boundary_pair :
  (MonteCarlo.pi_mc 1 boundary_draws).1 = Returns 4%float.
Proof. vm_compute. reflexivity. Qed.

(** C5, as the code has it. [pi_mc] validates nothing: its errors are
    those of the final [4.0 * in_circle / n]. A call raises
    [ZeroDivisionError] exactly when [n = 0], raises [OverflowError]
    exactly when [n] has no double (magnitude [2^1024 - 2^970] or more),
    and returns for every other [n], positive or negative. For a negative
    [n] no number is drawn, and the value returned is [4.0 * 0 / n]. *)
Theorem pi_mc_raises_iff_zero_or_huge (n : Z) (g : MonteCarlo.rng float) :
  ((MonteCarlo.pi_mc n g).1 = Raises ZeroDivisionError ↔ n = 0)
  ∧ ((MonteCarlo.pi_mc n g).1 = Raises OverflowError
     ↔ 2 ^ 1024 - 2 ^ 970 ≤ Z.abs n)
  ∧ ((∃ v, (MonteCarlo.pi_mc n g).1 = Returns v)
     ↔ n ≠ 0 ∧ Z.abs n < 2 ^ 1024 - 2 ^ 970)
  ∧ (n < 0 →
     (MonteCarlo.pi_mc n g).2 = g
     ∧ (Z.abs n < 2 ^ 1024 - 2 ^ 970 →
        (MonteCarlo.pi_mc n g).1
        = Returns (dbl_of_Z 4 * dbl_of_Z 0 / dbl_of_Z n)%D)).
Proof.
  assert (Hsmall : Z.abs n < 2 ^ 1024 - 2 ^ 970 →
            (MonteCarlo.pi_mc n g).1
            = if decide (n = 0) then Raises ZeroDivisionError
              else Returns (dbl_of_Z 4
                            * dbl_of_Z (Z.of_nat (MonteCarlo.count_inside
                                (MonteCarlo.draws g) (MonteCarlo.pos g) (Z.to_nat n)))
                            / dbl_of_Z n)%D).
  { intros Hn. apply pi_mc_result. by apply float_overflow_false. }
  assert (Hpos : 0 < 2 ^ 1024 - 2 ^ 970) by (vm_compute; reflexivity).
  destruct (decide (Z.abs n < 2 ^ 1024 - 2 ^ 970)) as [Hn|Hn].
  - specialize (Hsmall Hn). rewrite Hsmall.
    destruct (decide (n = 0)) as [->|Hn0].
    + split; [done|]. split; [split; [done|lia]|].
      split; [split; [intros [v Hv]; done|intros [? _]; done]|]. lia.
    + split; [done|]. split; [split; [done|lia]|].
      split; [split; [done|eauto]|].
      intros Hneg. split.
      * rewrite pi_mc_unfold. cbn [snd]. destruct g as [d p].
        cbn [MonteCarlo.draws MonteCarlo.pos]. f_equal.
        replace (Z.to_nat n) with 0%nat by lia. lia.
      * intros _. replace (Z.to_nat n) with 0%nat by lia. reflexivity.
  - rewrite (pi_mc_overflow n g) by (apply float_overflow_true; lia).
    split; [split; [done|intros ->; simpl in Hn; lia]|].
    split; [split; [lia|done]|].
    split; [split; [intros [v Hv]; done|intros [_ ?]; lia]|].
    intros Hneg. split; [|lia].
    rewrite pi_mc_unfold. cbn [snd]. destruct g as [d p].
    cbn [MonteCarlo.draws MonteCarlo.pos]. f_equal.
    replace (Z.to_nat n) with 0%nat by lia. lia.
Qed.

(** C5 fails as stated: [-1] is not positive, and [pi_mc(-1)] does not
    raise; it returns [4.0 * 0 / -1], which is [-0.0]. *)
Lemma pi_mc_negative_returns :
  ¬ (0 < -1)
  ∧ (MonteCarlo.pi_mc (-1) float_thirds).1 = Returns (-0)%float
  ∧ ¬ ∃ e, (MonteCarlo.pi_mc (-1) float_thirds).1 = Raises e.
Proof.
  split; [lia|].
  assert (Hr : (MonteCarlo.pi_mc (-1) float_thirds).1 = Returns (-0)%float)
    by (vm_compute; reflexivity).
  split; [exact Hr|]. intros [e He]. rewrite Hr in He. discriminate.
Qed.

(** An [n] without a double: [pi_mc(-(10**400))] runs no pass of the
    loop and ends in the [OverflowError] of the division. *)
Example pi_mc_huge_negative_raises :
  (MonteCarlo.pi_mc (- 10 ^ 400) float_thirds).1 = Raises OverflowError.
Proof. vm_compute. reflexivity. Qed.

(** ** Two-dimensional arrays *)

Section NdArrayFacts.
Context {A : Type}.
Implicit Types (a b : ndarray A).

Lemma lookup2_Some a i j v :
  lookup2 a i j = Some v ↔ ∃ r, rows a !! i = Some r ∧ r !! j = Some v.
Proof.
  unfold lookup2. destruct (rows a !! i) as [r|]; simpl; split.
  - intros Hv. eauto.
  - intros (r' & Hr & Hv). congruence.
  - done.
  - intros (r' & Hr & _). done.
Qed.

Lemma lookup2_in_range a i j :
  well_formed a → (i < (shape a).1)%nat → (j < (shape a).2)%nat →
  is_Some (lookup2 a i j).
Proof.
  intros [Hlen Hrows] Hi Hj.
  destruct (lookup_lt_is_Some_2 (rows a) i) as [r Hr]; [lia|].
  pose proof (proj1 (Forall_lookup _ _) Hrows i r Hr) as Hr'. simpl in Hr'.
  destruct (lookup_lt_is_Some_2 r j) as [v Hv]; [lia|].
  exists v. apply lookup2_Some. eauto.
Qed.

Lemma lookup2_out_of_range a i j :
  well_formed a → ¬ ((i < (shape a).1)%nat ∧ (j < (shape a).2)%nat) →
  lookup2 a i j = None.
Proof.
  intros [Hlen Hrows] Hout. unfold lookup2.
  destruct (rows a !! i) as [r|] eqn:Hr; simpl; [|done].
  pose proof (proj1 (Forall_lookup _ _) Hrows i r Hr) as Hr'. simpl in Hr'.
  apply lookup_lt_Some in Hr as Hi. apply lookup_ge_None. lia.
Qed.

(** Two well-formed arrays of one shape with the same entries are equal. *)
Lemma ndarray_ext a b :
  well_formed a → well_formed b → shape a = shape b →
  (∀ i j, lookup2 a i j = lookup2 b i j) → a = b.
Proof.
  destruct a as [sa ra], b as [sb rb]. unfold well_formed. simpl.
  intros [Hla Hra] [Hlb Hrb] -> Hext. f_equal.
  apply list_eq. intros i.
  destruct (ra !! i) as [r1|] eqn:H1, (rb !! i) as [r2|] eqn:H2.
  - f_equal. apply list_eq. intros j.
    specialize (Hext i j). unfold lookup2 in Hext. simpl in Hext.
    by rewrite H1, H2 in Hext.
  - apply lookup_lt_Some in H1. apply lookup_ge_None in H2. lia.
  - apply lookup_lt_Some in H2. apply lookup_ge_None in H1. lia.
  - done.
Qed.

Lemma update2_Some a i j v :
  well_formed a → (i < (shape a).1)%nat → (j < (shape a).2)%nat →
  ∃ r, rows a !! i = Some r
     ∧ update2 a i j v = Some (mk_ndarray (shape a) (<[i := <[j := v]> r]> (rows a))).
Proof.
  intros [Hlen Hrows] Hi Hj.
  destruct (lookup_lt_is_Some_2 (rows a) i) as [r Hr]; [lia|].
  pose proof (proj1 (Forall_lookup _ _) Hrows i r Hr) as Hr'. simpl in Hr'.
  exists r. split; [done|]. unfold update2. rewrite Hr. simpl.
  rewrite option_guard_True by lia. done.
Qed.

Lemma update2_spec a i j v a' :
  well_formed a → update2 a i j v = Some a' →
  shape a' = shape a ∧ well_formed a'
  ∧ ∀ i' j', lookup2 a' i' j'
             = if decide (i' = i ∧ j' = j) then Some v else lookup2 a i' j'.
Proof.
  intros [Hlen Hrows] Hup. unfold update2 in Hup.
  destruct (rows a !! i) as [r|] eqn:Hr; simpl in Hup; [|done].
  destruct (decide (j < length r)%nat) as [Hj|Hj];
    [rewrite option_guard_True in Hup by done
    |rewrite option_guard_False in Hup by done; done].
  simpl in Hup. injection Hup as <-. simpl.
  apply lookup_lt_Some in Hr as Hi.
  pose proof (proj1 (Forall_lookup _ _) Hrows i r Hr) as Hr'. simpl in Hr'.
  split; [done|]. split.
  - split; simpl; [by rewrite length_insert|].
    apply Forall_insert; [done|]. by rewrite length_insert.
  - intros i' j'. unfold lookup2. simpl.
    destruct (decide (i' = i)) as [->|Hne].
    + rewrite list_lookup_insert_eq by done. simpl. rewrite Hr. simpl.
      destruct (decide (j' = j)) as [->|Hne'].
      * rewrite decide_True by done. by rewrite list_lookup_insert_eq.
      * rewrite decide_False by (intros [? ?]; done). by rewrite list_lookup_insert_ne.
    + rewrite list_lookup_insert_ne by done.
      by rewrite decide_False by (intros [? ?]; done).
Qed.

Lemma tabulate_well_formed n0 n1 (f : nat → nat → A) :
  well_formed (tabulate n0 n1 f).
Proof.
  split; simpl.
  - by rewrite length_fmap, length_seq.
  - apply Forall_fmap, Forall_forall. intros i _. simpl.
    by rewrite length_fmap, length_seq.
Qed.

Lemma lookup2_tabulate n0 n1 (f : nat → nat → A) i j :
  lookup2 (tabulate n0 n1 f) i j
  = if decide ((i < n0)%nat ∧ (j < n1)%nat) then Some (f i j) else None.
Proof.
  unfold lookup2, tabulate. simpl. rewrite list_lookup_fmap.
  destruct (decide (i < n0)%nat) as [Hi|Hi].
  - rewrite lookup_seq_lt by done. simpl. rewrite list_lookup_fmap.
    destruct (decide (j < n1)%nat) as [Hj|Hj].
    + rewrite lookup_seq_lt by done. simpl. by rewrite decide_True.
    + rewrite lookup_seq_ge by lia. simpl. by rewrite decide_False by (intros [? ?]; done).
  - rewrite lookup_seq_ge by lia. simpl. by rewrite decide_False by (intros [? ?]; done).
Qed.

(** An array whose entries are all given by [f] is [tabulate f]. *)
Lemma ndarray_is_tabulate a n0 n1 (f : nat → nat → A) :
  well_formed a → shape a = (n0, n1) →
  (∀ i j, (i < n0)%nat → (j < n1)%nat → lookup2 a i j = Some (f i j)) →
  a = tabulate n0 n1 f.
Proof.
  intros Hwf Hsh Hent. apply ndarray_ext; [done|apply tabulate_well_formed|done|].
  intros i j. rewrite lookup2_tabulate. destruct (decide _) as [[Hi Hj]|Hout].
  - by apply Hent.
  - apply lookup2_out_of_range; [done|]. by rewrite Hsh.
Qed.

Lemma tabulate_ext n0 n1 (f g : nat → nat → A) :
  (∀ i j, (i < n0)%nat → (j < n1)%nat → f i j = g i j) →
  tabulate n0 n1 f = tabulate n0 n1 g.
Proof.
  intros Hfg. apply ndarray_is_tabulate; [apply tabulate_well_formed|done|].
  intros i j Hi Hj. rewrite lookup2_tabulate, decide_True by done.
  by rewrite Hfg.
Qed.

(** The doubly nested loop that stores [g i j] at [(i, j)] for
    [i < n0], [j < n1]: a loop body that performs this store overwrites
    exactly that block of the array. *)
Lemma fill_row (n1 : nat) (body : nat → ndarray A → outcome (ndarray A))
    (g : nat → A) (i : nat) a :
  well_formed a → (i < (shape a).1)%nat → (n1 ≤ (shape a).2)%nat →
  (∀ j a0 a', (j < n1)%nat → update2 a0 i j (g j) = Some a' → body j a0 = Returns a') →
  ∃ a', for_each (seq 0 n1) body a = Returns a'
      ∧ shape a' = shape a ∧ well_formed a'
      ∧ ∀ i' j', lookup2 a' i' j'
                 = if decide (i' = i ∧ (j' < n1)%nat) then Some (g j')
                   else lookup2 a i' j'.
Proof.
  intros Hwf Hi. induction n1 as [|n1 IH]; intros Hn1 Hbody.
  - exists a. split; [done|]. split; [done|]. split; [done|].
    intros i' j'. rewrite decide_False; [done|lia].
  - destruct IH as (a1 & Hrun & Hsh & Hwf1 & Hent); [lia|intros; apply Hbody; (lia||done)|].
    rewrite seq_S, for_each_app, Hrun. simpl.
    destruct (update2_Some a1 i n1 (g n1)) as (r & _ & Hup); [done|rewrite Hsh; lia..|].
    rewrite (Hbody _ _ _ (Nat.lt_succ_diag_r n1) Hup). simpl.
    destruct (update2_spec _ _ _ _ _ Hwf1 Hup) as (Hsh' & Hwf' & Hent').
    eexists. split; [done|]. split; [by rewrite Hsh'|]. split; [done|].
    intros i' j'. rewrite Hent', Hent.
    repeat case_decide; destruct_and?; subst; try done; exfalso; lia.
Qed.

Lemma fill_loop (n0 n1 : nat) (body : nat → nat → ndarray A → outcome (ndarray A))
    (g : nat → nat → A) a :
  well_formed a → (n0 ≤ (shape a).1)%nat → (n1 ≤ (shape a).2)%nat →
  (∀ i j a0 a', (i < n0)%nat → (j < n1)%nat →
     update2 a0 i j (g i j) = Some a' → body i j a0 = Returns a') →
  ∃ a', for_each (seq 0 n0) (λ i a0, for_each (seq 0 n1) (body i) a0) a = Returns a'
      ∧ shape a' = shape a ∧ well_formed a'
      ∧ ∀ i j, lookup2 a' i j
               = if decide ((i < n0)%nat ∧ (j < n1)%nat) then Some (g i j)
                 else lookup2 a i j.
Proof.
  intros Hwf. induction n0 as [|n0 IH]; intros Hn0 Hn1 Hbody.
  - exists a. split; [done|]. split; [done|]. split; [done|].
    intros i j. rewrite decide_False; [done|lia].
  - destruct IH as (a1 & Hrun & Hsh & Hwf1 & Hent);
      [lia|done|intros; apply Hbody; (lia||done)|].
    rewrite seq_S, for_each_app, Hrun. simpl.
    destruct (fill_row n1 (body n0) (g n0) n0 a1) as (a2 & Hrun2 & Hsh2 & Hwf2 & Hent2);
      [done|rewrite Hsh; lia|rewrite Hsh; lia|intros; apply Hbody; (lia||done)|].
    rewrite Hrun2. simpl.
    exists a2. split; [done|]. split; [by rewrite Hsh2|]. split; [done|].
    intros i j. rewrite Hent2, Hent.
    repeat case_decide; destruct_and?; subst; try done; exfalso; lia.
Qed.

End NdArrayFacts.

(** ** Distance matrices *)

Lemma getitem_unchecked_in_range (a : ndarray Qc) i j :
  well_formed a → (i < (shape a).1)%nat → (j < (shape a).2)%nat →
  getitem_unchecked a i j = Returns (entry a i j).
Proof.
  intros Hwf Hi Hj. unfold getitem_unchecked, entry.
  by destruct (lookup2_in_range a i j Hwf Hi Hj) as [v ->].
Qed.

Lemma getitem_in_range (a : ndarray Qc) i j :
  well_formed a → (i < (shape a).1)%nat → (j < (shape a).2)%nat →
  getitem a i j = Returns (entry a i j).
Proof.
  intros Hwf Hi Hj. unfold getitem, entry.
  by destruct (lookup2_in_range a i j Hwf Hi Hj) as [v ->].
Qed.

Lemma entry_tabulate n0 n1 (f : nat → nat → Qc) i j :
  (i < n0)%nat → (j < n1)%nat → entry (tabulate n0 n1 f) i j = f i j.
Proof.
  intros Hi Hj. unfold entry. by rewrite lookup2_tabulate, decide_True.
Qed.

Lemma np_zeros_well_formed sh : well_formed (np_zeros sh).
Proof.
  split; simpl; [by rewrite length_replicate|].
  apply Forall_replicate. by rewrite length_replicate.
Qed.

Lemma sum_range_S n (f : nat → Qc) :
  sum_range (S n) f = (sum_range n f + f n)%Qc.
Proof. unfold sum_range. by rewrite seq_S, foldl_app. Qed.

Lemma sum_range_ext n (f g : nat → Qc) :
  (∀ k, (k < n)%nat → f k = g k) → sum_range n f = sum_range n g.
Proof.
  induction n as [|n IH]; intros Hfg; [done|].
  rewrite !sum_range_S, IH, Hfg by (intros; (apply Hfg || idtac); lia). done.
Qed.

(** The innermost loop: [r = 0.0; for k in range(m): r += t k]. *)
Lemma accumulate_loop (m : nat) (body : nat → Qc → outcome Qc) (t : nat → Qc) :
  (∀ k r, (k < m)%nat → body k r = Returns (r + t k)%Qc) →
  for_each (seq 0 m) body 0%Qc = Returns (sum_range m t).
Proof.
  induction m as [|m IH]; intros Hbody; [done|].
  rewrite seq_S, for_each_app, IH by (intros; apply Hbody; lia). simpl.
  rewrite Hbody by lia. by rewrite sum_range_S.
Qed.

Lemma euclidean_numba1_is_tabulate (x y : ndarray Qc) (N m : nat) :
  well_formed x → shape x = (N, m) →
  well_formed y → (N ≤ (shape y).1)%nat → (m ≤ (shape y).2)%nat →
  Euclidean.euclidean_numba1 x y = Returns (tabulate N N (sq_dist m x y)).
Proof.
  intros Hx Hsx Hy HN Hm. unfold Euclidean.euclidean_numba1. rewrite Hsx.
  destruct (fill_loop N N
    (λ i j dist_matrix,
       r ← for_each (seq 0 m) (λ k r,
              xik ← getitem_unchecked x i k;
              yjk ← getitem_unchecked y j k;
              mret (r + (xik - yjk) ^ 2)%Qc) 0%Qc;
       setitem_unchecked dist_matrix i j r)
    (sq_dist m x y) (np_zeros (N, N)))
    as (d & Hrun & Hsh & Hwf & Hent); [apply np_zeros_well_formed|done|done| |].
  - intros i j a0 a' Hi Hj Hup.
    rewrite (accumulate_loop m _ (λ k, (entry x i k - entry y j k) ^ 2)%Qc).
    + change (setitem_unchecked a0 i j (sq_dist m x y i j) = Returns a').
      unfold setitem_unchecked. by rewrite Hup.
    + intros k r Hk.
      rewrite !getitem_unchecked_in_range by (done || rewrite ?Hsx; simpl; lia).
      done.
  - rewrite Hrun. f_equal. apply ndarray_is_tabulate; [done|done|].
    intros i j Hi Hj. by rewrite Hent, decide_True.
Qed.

Lemma cityblock_numba1_is_tabulate junk (x y : ndarray Qc) (N m : nat) :
  well_formed x → shape x = (N, m) →
  well_formed y → (N ≤ (shape y).1)%nat → (m ≤ (shape y).2)%nat →
  Cityblock.cityblock_numba1 junk x y = Returns (tabulate N N (abs_dist m x y)).
Proof.
  intros Hx Hsx Hy HN Hm. unfold Cityblock.cityblock_numba1. rewrite Hsx.
  destruct (fill_loop N N
    (λ i j dist_matrix,
       r ← for_each (seq 0 m) (λ k r,
              xik ← getitem_unchecked x i k;
              yjk ← getitem_unchecked y j k;
              mret (r + Qcabs (xik - yjk))%Qc) 0%Qc;
       setitem_unchecked dist_matrix i j r)
    (abs_dist m x y) (np_empty junk (N, N)))
    as (d & Hrun & Hsh & Hwf & Hent); [apply tabulate_well_formed|done|done| |].
  - intros i j a0 a' Hi Hj Hup.
    rewrite (accumulate_loop m _ (λ k, Qcabs (entry x i k - entry y j k))).
    + change (setitem_unchecked a0 i j (abs_dist m x y i j) = Returns a').
      unfold setitem_unchecked. by rewrite Hup.
    + intros k r Hk.
      rewrite !getitem_unchecked_in_range by (done || rewrite ?Hsx; simpl; lia).
      done.
  - rewrite Hrun. f_equal. apply ndarray_is_tabulate; [done|done|].
    intros i j Hi Hj. by rewrite Hent, decide_True.
Qed.

Lemma cityblock_python_is_tabulate junk (x y : ndarray Qc) (N m : nat) :
  well_formed x → shape x = (N, m) →
  well_formed y → (N ≤ (shape y).1)%nat → (m ≤ (shape y).2)%nat →
  Cityblock.cityblock_python junk x y = Returns (tabulate N N (abs_dist m x y)).
Proof.
  intros Hx Hsx Hy HN Hm. unfold Cityblock.cityblock_python. rewrite Hsx.
  destruct (fill_loop N N
    (λ i j dist_matrix,
       r ← for_each (seq 0 m) (λ k r,
              xik ← getitem x i k;
              yjk ← getitem y j k;
              mret (r + Qcabs (xik - yjk))%Qc) 0%Qc;
       setitem dist_matrix i j r)
    (abs_dist m x y) (np_empty junk (N, N)))
    as (d & Hrun & Hsh & Hwf & Hent); [apply tabulate_well_formed|done|done| |].
  - intros i j a0 a' Hi Hj Hup.
    rewrite (accumulate_loop m _ (λ k, Qcabs (entry x i k - entry y j k))).
    + change (setitem a0 i j (abs_dist m x y i j) = Returns a').
      unfold setitem. by rewrite Hup.
    + intros k r Hk.
      rewrite !getitem_in_range by (done || rewrite ?Hsx; simpl; lia).
      done.
  - rewrite Hrun. f_equal. apply ndarray_is_tabulate; [done|done|].
    intros i j Hi Hj. by rewrite Hent, decide_True.
Qed.

(** *** [euclidean_numpy] *)

Lemma Qc_two : Q2Qc 2 = (1 + 1)%Qc.
Proof. apply Qc_is_canon. reflexivity. Qed.

Lemma Qc_square_nonneg (a : Qc) : (0 ≤ a * a)%Qc.
Proof.
  destruct (Qclt_le_dec a 0) as [H|H].
  - apply Qclt_le_weak, Qcle_minus_iff in H.
    replace (a * a)%Qc with ((0 + - a) * (0 + - a))%Qc by ring.
    by apply Qcmult_nonneg_nonneg.
  - by apply Qcmult_nonneg_nonneg.
Qed.

Lemma sum_squares_nonneg n (a b : nat → Qc) :
  (0 ≤ sum_range n (λ k, (a k - b k) ^ 2))%Qc.
Proof.
  induction n as [|n IH]; [apply Qcle_refl|].
  rewrite sum_range_S. apply Qcplus_nonneg_nonneg; [done|].
  simpl. rewrite Qcmult_1_r. apply Qc_square_nonneg.
Qed.

(** The binomial expansion behind [x2 + y2 - 2 xy]. *)
Lemma sum_squares_expand n (a b : nat → Qc) :
  sum_range n (λ k, (a k - b k) ^ 2)%Qc
  = (sum_range n (λ k, a k * a k) + sum_range n (λ k, b k * b k)
     - Q2Qc 2 * sum_range n (λ k, a k * b k))%Qc.
Proof.
  induction n as [|n IH].
  - unfold sum_range. simpl. rewrite Qc_two. ring.
  - rewrite !sum_range_S, IH, Qc_two. simpl. ring.
Qed.

Lemma broadcast_dim_same n : broadcast_dim n n = Some n.
Proof. unfold broadcast_dim. by rewrite decide_True. Qed.

Lemma broadcast_dim_1_r n : broadcast_dim n 1 = Some n.
Proof. unfold broadcast_dim. repeat case_decide; by subst. Qed.

Lemma broadcast_dim_1_l n : broadcast_dim 1 n = Some n.
Proof. unfold broadcast_dim. repeat case_decide; by subst. Qed.

Lemma broadcast_index_lt n i : (i < n)%nat → broadcast_index n i = i.
Proof. unfold broadcast_index. intros Hi. case_decide; lia. Qed.

Lemma broadcast_index_1 i : broadcast_index 1 i = 0%nat.
Proof. unfold broadcast_index. by rewrite decide_True. Qed.

Lemma entry_newaxis (f : nat → Qc) n i :
  (i < n)%nat → entry (newaxis (f <$> seq 0 n)) i 0 = f i.
Proof.
  intros Hi. unfold entry, lookup2, newaxis. simpl.
  rewrite !list_lookup_fmap, lookup_seq_lt by done. done.
Qed.

Lemma map_array_tabulate (h : Qc → Qc) n0 n1 (f : nat → nat → Qc) :
  map_array h (tabulate n0 n1 f) = tabulate n0 n1 (λ i j, h (f i j)).
Proof.
  unfold map_array, tabulate. simpl. f_equal.
  rewrite <- list_fmap_compose. apply list_fmap_ext. intros _ i _. simpl.
  by rewrite <- list_fmap_compose.
Qed.

Lemma einsum_self (a : ndarray Qc) n0 n1 :
  shape a = (n0, n1) →
  einsum_ij_ij_i a a
  = Returns ((λ i, sum_range n1 (λ j, entry a i j * entry a i j)%Qc) <$> seq 0 n0).
Proof.
  intros Hs. unfold einsum_ij_ij_i. rewrite decide_True by done. by rewrite Hs.
Qed.

Lemma np_dot_returns (a b : ndarray Qc) n0 n1 n2 :
  shape a = (n0, n1) → shape b = (n1, n2) →
  np_dot a b
  = Returns (tabulate n0 n2 (λ i j, sum_range n1 (λ k, entry a i k * entry b k j)%Qc)).
Proof.
  intros Ha Hb. unfold np_dot. rewrite Ha, Hb. simpl. by rewrite decide_True.
Qed.

Lemma broadcast_returns op (a b : ndarray Qc) a0 a1 b0 b1 n0 n1 :
  shape a = (a0, a1) → shape b = (b0, b1) →
  broadcast_dim a0 b0 = Some n0 → broadcast_dim a1 b1 = Some n1 →
  broadcast op a b
  = Returns (tabulate n0 n1 (λ i j,
      op (entry a (broadcast_index a0 i) (broadcast_index a1 j))
         (entry b (broadcast_index b0 i) (broadcast_index b1 j)))).
Proof.
  intros Ha Hb H0 H1. unfold broadcast. rewrite Ha, Hb. simpl. by rewrite H0, H1.
Qed.

Lemma shape_newaxis_seq (f : nat → Qc) n :
  shape (newaxis (f <$> seq 0 n)) = (n, 1%nat).
Proof. unfold newaxis. simpl. by rewrite length_fmap, length_seq. Qed.

Lemma euclidean_numpy_is_tabulate (x y : ndarray Qc) (N m : nat) :
  well_formed x → well_formed y → shape x = (N, m) → shape y = (N, m) →
  Euclidean.euclidean_numpy x y = Returns (tabulate N N (sq_dist m x y)).
Proof.
  intros Hx Hy Hsx Hsy. unfold Euclidean.euclidean_numpy.
  rewrite (einsum_self x N m Hsx), (einsum_self y N m Hsy).
  cbn [mbind outcome_bind].
  set (x2 := newaxis _). set (y2 := transpose (newaxis _)).
  rewrite (np_dot_returns x (transpose y) N m N Hsx) by (unfold transpose; simpl; by rewrite Hsy).
  cbn [mbind outcome_bind].
  rewrite (broadcast_returns Qcplus x2 y2 N 1 1 N N N);
    [|apply shape_newaxis_seq
     |unfold y2, transpose; by rewrite shape_newaxis_seq
     |apply broadcast_dim_1_r|apply broadcast_dim_1_l].
  cbn [mbind outcome_bind].
  rewrite (broadcast_returns Qcminus _ _ N N N N N N);
    [|done|done|apply broadcast_dim_same..].
  cbn [mbind outcome_bind mret outcome_ret]. f_equal.
  unfold np_abs. rewrite !map_array_tabulate.
  apply tabulate_ext. intros i j Hi Hj.
  rewrite !broadcast_index_lt by done.
  rewrite !entry_tabulate by done.
  rewrite !broadcast_index_lt by done.
  rewrite !broadcast_index_1.
  unfold x2, y2, transpose. rewrite shape_newaxis_seq. simpl fst; simpl snd.
  rewrite !broadcast_index_lt by done.
  rewrite (entry_tabulate 1 N) by (done || lia).
  rewrite !entry_newaxis by done.
  rewrite (sum_range_ext m (λ k, entry x i k * entry (tabulate (shape y).2 (shape y).1 (λ i0 j0, entry y j0 i0)) k j)%Qc
             (λ k, entry x i k * entry y j k)%Qc).
  - unfold sq_dist. rewrite sum_squares_expand. apply Qcabs_pos.
    rewrite <- sum_squares_expand. apply sum_squares_nonneg.
  - intros k Hk. rewrite entry_tabulate by (rewrite Hsy; simpl; lia). done.
Qed.

Example euclidean_numba1_sample :
  Euclidean.euclidean_numba1 sample_x sample_y
  = Returns (matrix_of (2%nat, 2%nat) [[5; 5]; [26; 50]]).
Proof. vm_compute. reflexivity. Qed.

Example cityblock_numba1_sample :
  Cityblock.cityblock_numba1 (λ _ _, of_Z 7) sample_x sample_y
  = Returns (matrix_of (2%nat, 2%nat) [[3; 3]; [8; 12]]).
Proof. vm_compute. reflexivity. Qed.

(** Rows missing from [y] are an [IndexError] in the interpreter and
    undefined behaviour in the compiled kernel. *)
Example cityblock_short_y :
  Cityblock.cityblock_python (λ _ _, of_Z 7) sample_x (matrix_of (1%nat, 3%nat) [[0; 2; 5]])
  = Raises IndexError
  ∧ Cityblock.cityblock_numba1 (λ _ _, of_Z 7) sample_x (matrix_of (1%nat, 3%nat) [[0; 2; 5]])
    = Undefined.
Proof. split; vm_compute; reflexivity. Qed.

(** C1. On two matrices of one shape [(N, m)], in exact arithmetic,
    [euclidean_numba1] returns the matrix that [euclidean_numpy] returns,
    and [cityblock_numba1] the matrix that [cityblock_python] returns
    (whatever the memory obtained from [np.empty] held). *)
Theorem optimized_kernels_agree_with_baselines
    (junk junk' : nat → nat → Qc) (x y : ndarray Qc) (N m : nat) :
  well_formed x → well_formed y → shape x = (N, m) → shape y = (N, m) →
  (∃ d, Euclidean.euclidean_numba1 x y = Returns d
        ∧ Euclidean.euclidean_numpy x y = Returns d)
  ∧ (∃ d, Cityblock.cityblock_numba1 junk x y = Returns d
          ∧ Cityblock.cityblock_python junk' x y = Returns d).
Proof.
  intros Hx Hy Hsx Hsy. split.
  - exists (tabulate N N (sq_dist m x y)). split.
    + apply euclidean_numba1_is_tabulate; rewrite ?Hsy; done.
    + by apply euclidean_numpy_is_tabulate.
  - exists (tabulate N N (abs_dist m x y)). split.
    + apply cityblock_numba1_is_tabulate; rewrite ?Hsy; done.
    + apply cityblock_python_is_tabulate; rewrite ?Hsy; done.
Qed.

Lemma optimized_kernels_agree_with_baselines_witness :
  (∃ d, Euclidean.euclidean_numba1 sample_x sample_y = Returns d
        ∧ Euclidean.euclidean_numpy sample_x sample_y = Returns d)
  ∧ (∃ d, Cityblock.cityblock_numba1 (λ _ _, of_Z 7) sample_x sample_y = Returns d
          ∧ Cityblock.cityblock_python (λ _ _, of_Z 9) sample_x sample_y = Returns d).
Proof.
  apply (optimized_kernels_agree_with_baselines
           (λ _ _, of_Z 7) (λ _ _, of_Z 9) sample_x sample_y 2 3).
  - split; [reflexivity|]. repeat constructor.
  - split; [reflexivity|]. repeat constructor.
  - reflexivity.
  - reflexivity.
Defined.

(** C3. For [x] of shape [(N, m)] and [y] with at least [N] rows and [m]
    columns, entry [(i, j)] of [euclidean_numba1(x, y)] is the sum over
    [k < m] of [(x[i][k] - y[j][k])^2], and entry [(i, j)] of
    [cityblock_numba1(x, y)] is the sum over [k < m] of
    [|x[i][k] - y[j][k]|], for all [i, j < N]. *)
Theorem distance_matrix_entries
    (junk : nat → nat → Qc) (x y : ndarray Qc) (N m i j : nat) :
  well_formed x → shape x = (N, m) →
  well_formed y → (N ≤ (shape y).1)%nat → (m ≤ (shape y).2)%nat →
  (i < N)%nat → (j < N)%nat →
  (∃ d, Euclidean.euclidean_numba1 x y = Returns d
        ∧ lookup2 d i j
          = Some (sum_range m (λ k, (entry x i k - entry y j k) ^ 2)%Qc))
  ∧ (∃ d, Cityblock.cityblock_numba1 junk x y = Returns d
          ∧ lookup2 d i j
            = Some (sum_range m (λ k, Qcabs (entry x i k - entry y j k)))).
Proof.
  intros Hx Hsx Hy HN Hm Hi Hj. split.
  - eexists. split; [by apply euclidean_numba1_is_tabulate|].
    by rewrite lookup2_tabulate, decide_True.
  - eexists. split; [by apply cityblock_numba1_is_tabulate|].
    by rewrite lookup2_tabulate, decide_True.
Qed.

Lemma distance_matrix_entries_witness :
  (∃ d, Euclidean.euclidean_numba1 sample_x sample_y = Returns d
        ∧ lookup2 d 1 0
          = Some (sum_range 3 (λ k, (entry sample_x 1 k - entry sample_y 0 k) ^ 2)%Qc))
  ∧ (∃ d, Cityblock.cityblock_numba1 (λ _ _, of_Z 7) sample_x sample_y = Returns d
          ∧ lookup2 d 1 0
            = Some (sum_range 3 (λ k, Qcabs (entry sample_x 1 k - entry sample_y 0 k)))).
Proof.
  apply (distance_matrix_entries (λ _ _, of_Z 7) sample_x sample_y 2 3 1 0).
  - split; [reflexivity|]. repeat constructor.
  - reflexivity.
  - split; [reflexivity|]. repeat constructor.
  - simpl. lia.
  - simpl. lia.
  - lia.
  - lia.
Defined.

(** ** [while] loops *)

Section WhileFacts.
Context {S : Type} (cond : S → bool) (body : S → S) (measure : S → nat).
Context (decreases : ∀ s, cond s = true → (measure (body s) < measure s)%nat).

Lemma while_loop_eq (s : S) :
  while cond body measure decreases s
  = if cond s then while cond body measure decreases (body s) else s.
Proof.
  rewrite while_equation_1.
  assert (H : ∀ r : {b : bool | cond s = b},
             while_unfold_clause_1 cond body measure decreases s r
             = if proj1_sig r then while cond body measure decreases (body s) else s).
  { intros [[] e]; reflexivity. }
  rewrite H. reflexivity.
Qed.

(** The loop rule: an invariant of the body holds when the loop is left,
    and the loop is left with its condition false. *)
Lemma while_invariant (I : S → Prop) :
  (∀ s, I s → cond s = true → I (body s)) →
  ∀ s, I s →
    I (while cond body measure decreases s)
    ∧ cond (while cond body measure decreases s) = false.
Proof.
  intros Hstep s. remember (measure s) as n eqn:Hn. revert s Hn.
  induction n as [n IH] using lt_wf_ind. intros s -> Hs.
  rewrite while_loop_eq. destruct (cond s) eqn:Hc.
  - apply (IH (measure (body s))); auto.
  - auto.
Qed.

(** No infinite run of passes: the passes of the loop form a
    well-founded relation. *)
Lemma step_well_founded : well_founded (λ s' s, step cond body s s').
Proof.
  intros s. remember (measure s) as n eqn:Hn. revert s Hn.
  induction n as [n IH] using lt_wf_ind. intros s ->.
  constructor. intros s' [Hc ->]. apply (IH (measure (body s))); auto.
Qed.

End WhileFacts.

(** ** Julia sets *)

Section JuliaFacts.
Context `{Double D}.
Variables (cx cy : D) (iter_max : Z) (radius2 : D).

Lemma getitem_unchecked_grid (a : ndarray D) i j :
  well_formed a → (i < (shape a).1)%nat → (j < (shape a).2)%nat →
  getitem_unchecked a i j = Returns (Julia.grid_entry a i j).
Proof.
  intros Hwf Hi Hj. unfold getitem_unchecked, Julia.grid_entry.
  by destruct (lookup2_in_range a i j Hwf Hi Hj) as [v ->].
Qed.

Lemma julia_cond_true (s : Julia.pixel D) :
  Julia.julia_cond iter_max radius2 s = true
  ↔ (Julia.px s * Julia.px s + Julia.py s * Julia.py s <? radius2)%D = true
    ∧ Julia.pk s < iter_max.
Proof.
  unfold Julia.julia_cond. rewrite andb_true_iff, bool_decide_eq_true. done.
Qed.

Lemma julia_cond_false (s : Julia.pixel D) :
  Julia.julia_cond iter_max radius2 s = false
  ↔ Julia.escaped radius2 (Julia.px s, Julia.py s) ∨ iter_max ≤ Julia.pk s.
Proof.
  unfold Julia.julia_cond, Julia.escaped.
  rewrite andb_false_iff, bool_decide_eq_false. cbn [fst snd].
  split; (intros [Hc|Hc]; [by left|right; lia]).
Qed.

(** The increment of [k] stays within [int]. *)
Lemma julia_increment_no_overflow (s : Julia.pixel D) :
  is_int iter_max → is_int (Julia.pk s) →
  Julia.julia_cond iter_max radius2 s = true →
  to_int (Julia.pk s + 1) = Julia.pk (Julia.julia_body cx cy s).
Proof.
  intros Hm Hk [_ Hlt]%julia_cond_true. simpl. apply to_int_id.
  int_range.
Qed.

Lemma julia_invariant_init x0 y0 :
  Julia.julia_invariant cx cy iter_max radius2 x0 y0 (Julia.mk_pixel x0 y0 0).
Proof.
  exists 0%nat. split; [done|]. split; [done|]. split; [by right|].
  intros k' Hk'. lia.
Qed.

Lemma julia_invariant_step x0 y0 s :
  Julia.julia_invariant cx cy iter_max radius2 x0 y0 s → Julia.julia_cond iter_max radius2 s = true →
  Julia.julia_invariant cx cy iter_max radius2 x0 y0 (Julia.julia_body cx cy s).
Proof.
  intros (n & Hk & Hp & Hle & Hno) [Hin Hlt]%julia_cond_true.
  exists (S n). split; [simpl; lia|]. split.
  - simpl. rewrite <- Hp. done.
  - split; [left; lia|]. intros k' Hk'.
    destruct (decide (k' = n)) as [->|Hne]; [|apply Hno; lia].
    unfold Julia.escaped. rewrite <- Hp. cbn [fst snd]. by rewrite Hin.
Qed.

(** What the [while] loop of one pixel computes. *)
Lemma julia_while_escape_count x0 y0 :
  Julia.escape_count (Julia.escaped radius2) cx cy (Z.max 0 iter_max) x0 y0
    (Julia.pk (Julia.julia_while cx cy iter_max radius2 (Julia.mk_pixel x0 y0 0))).
Proof.
  unfold Julia.julia_while.
  destruct (while_invariant _ _ _ (Julia.julia_decreases cx cy iter_max radius2)
              (Julia.julia_invariant cx cy iter_max radius2 x0 y0) (julia_invariant_step x0 y0)
              _ (julia_invariant_init x0 y0))
    as [(n & Hk & Hp & Hle & Hno) Hexit].
  set (r := while _ _ _ _ _) in *.
  apply julia_cond_false in Hexit.
  assert (Hn : Z.of_nat n ≤ Z.max 0 iter_max) by (destruct Hle; lia).
  destruct (decide (Z.of_nat n < Z.max 0 iter_max)) as [Hlt|Hge].
  - left. exists n. split; [done|]. split; [|done].
    destruct Hexit as [Hesc|Hcap]; [|lia].
    by rewrite <- Hp.
  - right. split; [|lia]. intros k Hk'. apply Hno. lia.
Qed.

Lemma julia_set_cython_is_tabulate (X Y : ndarray D) (julia : ndarray Z) ny nx :
  is_int (Z.of_nat ny) → is_int (Z.of_nat nx) →
  well_formed X → well_formed Y → well_formed julia →
  shape X = (ny, nx) → shape Y = (ny, nx) → shape julia = (ny, nx) →
  Julia.julia_set_cython cx cy iter_max radius2 X Y julia
  = Returns (tabulate ny nx (λ i j,
      Julia.pk (Julia.julia_while cx cy iter_max radius2
                  (Julia.mk_pixel (Julia.grid_entry X i j) (Julia.grid_entry Y i j) 0)))).
Proof.
  intros Hny Hnx HX HY HJ HsX HsY HsJ. unfold Julia.julia_set_cython. rewrite HsX.
  cbn [fst snd]. rewrite !to_int_id by done.
  rewrite for_each_seqZ.
  rewrite (for_each_ext _ _ _ _ (λ i julia0, for_each_seqZ nx _ julia0)).
  destruct (fill_loop ny nx
    (λ i j julia,
       x ← getitem_unchecked X (Z.to_nat (Z.of_nat i)) (Z.to_nat (Z.of_nat j));
       y ← getitem_unchecked Y (Z.to_nat (Z.of_nat i)) (Z.to_nat (Z.of_nat j));
       setitem_unchecked julia (Z.to_nat (Z.of_nat i)) (Z.to_nat (Z.of_nat j))
         (Julia.pk (Julia.julia_while cx cy iter_max radius2 (Julia.mk_pixel x y 0))))
    (λ i j, Julia.pk (Julia.julia_while cx cy iter_max radius2
                        (Julia.mk_pixel (Julia.grid_entry X i j) (Julia.grid_entry Y i j) 0)))
    julia)
    as (d & Hrun & Hsh & Hwf & Hent); [done|by rewrite HsJ|by rewrite HsJ| |].
  - intros i j a0 a' Hi Hj Hup. rewrite !Nat2Z.id.
    rewrite !getitem_unchecked_grid by (done || rewrite ?HsX, ?HsY; done).
    cbn [mbind outcome_bind]. unfold setitem_unchecked. by rewrite Hup.
  - rewrite Hrun. f_equal. apply ndarray_is_tabulate; [done|by rewrite Hsh|].
    intros i j Hi Hj. by rewrite Hent, decide_True.
Qed.

End JuliaFacts.

(** In exact arithmetic the test of the loop fails exactly when
    [x*x + y*y >= radius2]. *)
Lemma escaped_exact (radius2 : Qc) (p : Qc * Qc) :
  Julia.escaped radius2 p ↔ Julia.reaches radius2 p.
Proof.
  unfold Julia.escaped, Julia.reaches. cbn [dbl_ltb dbl_leb exact_arithmetic].
  rewrite bool_decide_eq_false, bool_decide_eq_true.
  split; [apply Qcnot_lt_le|apply Qcle_not_lt].
Qed.

Example julia_set_cython_sample :
  Julia.julia_set_cython 0%float 0%float 10 4%float grid_X grid_Y sample_julia
  = Returns (mk_ndarray (2%nat, 2%nat) [[10; 1]; [0; 0]]).
Proof. vm_compute. reflexivity. Qed.

(** The test of the loop is the test of the doubles. From
    [x = 1 + 3 * 2^-28] with [radius2] the double [x * x], the product
    [x * x] is not below [radius2] and the cell holds [0]; in exact
    arithmetic the square of [x] is below that double, and the count
    is [1]. *)
Example julia_rounded_test :
  Julia.julia_set_cython 0%float 0%float 10
    (0x1.0000003p+0 * 0x1.0000003p+0)%float
    (mk_ndarray (1%nat, 1%nat) [[0x1.0000003p+0%float]])
    (mk_ndarray (1%nat, 1%nat) [[0%float]])
    (mk_ndarray (1%nat, 1%nat) [[9]])
  = Returns (mk_ndarray (1%nat, 1%nat) [[0]])
  ∧ Julia.julia_set_cython (of_Z 0) (of_Z 0) 10
      (Q2Qc (1 + (6 # 2 ^ 28) + (1 # 2 ^ 52)))
      (mk_ndarray (1%nat, 1%nat) [[Q2Qc (1 + (3 # 2 ^ 28))]])
      (mk_ndarray (1%nat, 1%nat) [[of_Z 0]])
      (mk_ndarray (1%nat, 1%nat) [[9]])
    = Returns (mk_ndarray (1%nat, 1%nat) [[1]]).
Proof. split; vm_compute; reflexivity. Qed.




(** C8. Two runs of the kernel on the same grids and parameters (grids
    and output arrays of one shape [(ny, nx)], [ny] and [nx] within the C
    [int]s that hold them) end with the same output array, whatever the
    output arrays held before. *)
Theorem julia_set_cython_deterministic `{Double D}
    (cx cy : D) (iter_max : Z) (radius2 : D)
    (X Y : ndarray D) (julia1 julia2 : ndarray Z) (ny nx : nat) :
  is_int (Z.of_nat ny) → is_int (Z.of_nat nx) →
  well_formed X → well_formed Y → well_formed julia1 → well_formed julia2 →
  shape X = (ny, nx) → shape Y = (ny, nx) →
  shape julia1 = (ny, nx) → shape julia2 = (ny, nx) →
  ∃ out,
    Julia.julia_set_cython cx cy iter_max radius2 X Y julia1 = Returns out
    ∧ Julia.julia_set_cython cx cy iter_max radius2 X Y julia2 = Returns out.
Proof.
  intros Hny Hnx HX HY H1 H2 HsX HsY Hs1 Hs2. eexists. split.
  - by apply (julia_set_cython_is_tabulate cx cy iter_max radius2 X Y julia1 ny nx).
  - by apply (julia_set_cython_is_tabulate cx cy iter_max radius2 X Y julia2 ny nx).
Qed.

Lemma julia_set_cython_deterministic_witness :
  ∃ out,
    Julia.julia_set_cython 0%float 0%float 10 4%float grid_X grid_Y sample_julia
    = Returns out
    ∧ Julia.julia_set_cython 0%float 0%float 10 4%float grid_X grid_Y sample_julia'
      = Returns out.
Proof.
  apply (julia_set_cython_deterministic 0%float 0%float 10 4%float
           grid_X grid_Y sample_julia sample_julia' 2 2).
  - unfold is_int, int_min, int_max. lia.
  - unfold is_int, int_min, int_max. lia.
  - split; [reflexivity|]. repeat constructor.
  - split; [reflexivity|]. repeat constructor.
  - split; [reflexivity|]. repeat constructor.
  - split; [reflexivity|]. repeat constructor.
  - reflexivity.
  - reflexivity.
  - reflexivity.
  - reflexivity.
Defined.

(** C9. Every kernel terminates. The [while] loop of [julia_set_cython]
    cannot run forever, for any parameters and from any state: a pass
    needs [k < iter_max] and increments [k], so the passes form a
    well-founded relation, and the loop is left with its condition false.
    [pi_mc(n)] ends after exactly [max(n, 0)] passes, with a value or
    with the [ZeroDivisionError] or [OverflowError] of its last line; it
    ends with a value when [n] is not [0] and has a double. The [for]
    loops of the distance kernels and of [julia_set_cython] run over
    finite ranges, and on arrays of one shape these kernels return. *)
Theorem kernels_terminate `{Double D}
    (cx cy : D) (iter_max : Z) (radius2 : D) (n : Z) (g : MonteCarlo.rng D)
    (junk : nat → nat → Qc) (x y : ndarray Qc) (N m : nat)
    (X Y : ndarray D) (julia : ndarray Z) (ny nx : nat) :
  well_formed x → well_formed y → shape x = (N, m) → shape y = (N, m) →
  is_int (Z.of_nat ny) → is_int (Z.of_nat nx) →
  well_formed X → well_formed Y → well_formed julia →
  shape X = (ny, nx) → shape Y = (ny, nx) → shape julia = (ny, nx) →
  (∀ s, Julia.julia_cond iter_max radius2 s = true →
        Julia.pk s < iter_max
        ∧ Julia.pk (Julia.julia_body cx cy s) = Julia.pk s + 1)
  ∧ well_founded (λ s' s,
      step (Julia.julia_cond iter_max radius2) (Julia.julia_body cx cy) s s')
  ∧ (∀ s, Julia.julia_cond iter_max radius2
            (Julia.julia_while cx cy iter_max radius2 s) = false)
  ∧ (∃ o, MonteCarlo.pi_mc n g
          = (o, MonteCarlo.mk_rng (MonteCarlo.draws g)
                  (MonteCarlo.pos g + 2 * Z.to_nat n))
        ∧ ((∃ v, o = Returns v)
           ∨ o = Raises ZeroDivisionError ∨ o = Raises OverflowError)
        ∧ (n ≠ 0 → dbl_overflow n = false → ∃ v, o = Returns v))
  ∧ (∃ d, Euclidean.euclidean_numba1 x y = Returns d)
  ∧ (∃ d, Euclidean.euclidean_numpy x y = Returns d)
  ∧ (∃ d, Cityblock.cityblock_python junk x y = Returns d)
  ∧ (∃ d, Cityblock.cityblock_numba1 junk x y = Returns d)
  ∧ (∃ out, Julia.julia_set_cython cx cy iter_max radius2 X Y julia = Returns out).
Proof.
  intros Hx Hy Hsx Hsy Hny Hnx HX HY HJ HsX HsY HsJ.
  split; [|split; [|split; [|split; [|split; [|split; [|split; [|split]]]]]]].
  - intros s [_ Hlt]%julia_cond_true. split; [done|reflexivity].
  - apply (step_well_founded _ _ _ (Julia.julia_decreases cx cy iter_max radius2)).
  - intros s. unfold Julia.julia_while.
    apply (while_invariant _ _ _ (Julia.julia_decreases cx cy iter_max radius2)
             (λ _, True)); done.
  - eexists. split; [apply pi_mc_unfold|].
    pose proof (pi_mc_result n g) as Hr. pose proof (pi_mc_overflow n g) as Ho.
    rewrite pi_mc_unfold in Hr, Ho. cbn [fst] in Hr, Ho. cbv zeta in Hr.
    destruct (dbl_overflow n) eqn:Hn.
    + rewrite Ho by done. split; [by right; right|]. done.
    + rewrite Hr by done. destruct (decide (n = 0)) as [->|Hn0].
      * split; [by right; left|]. done.
      * split; [left; eauto|]. eauto.
  - eexists. apply (euclidean_numba1_is_tabulate x y N m); rewrite ?Hsy; done.
  - eexists. by apply (euclidean_numpy_is_tabulate x y N m).
  - eexists. apply (cityblock_python_is_tabulate junk x y N m); rewrite ?Hsy; done.
  - eexists. apply (cityblock_numba1_is_tabulate junk x y N m); rewrite ?Hsy; done.
  - eexists. by apply (julia_set_cython_is_tabulate cx cy iter_max radius2 X Y julia ny nx).
Qed.

Lemma kernels_terminate_witness :
  (∀ s, Julia.julia_cond 10 4%float s = true →
        Julia.pk s < 10
        ∧ Julia.pk (Julia.julia_body 0%float 0%float s) = Julia.pk s + 1)
  ∧ well_founded (λ s' s,
      step (Julia.julia_cond 10 4%float) (Julia.julia_body 0%float 0%float) s s')
  ∧ (∀ s, Julia.julia_cond 10 4%float
            (Julia.julia_while 0%float 0%float 10 4%float s) = false)
  ∧ (∃ o, MonteCarlo.pi_mc 4 float_thirds
          = (o, MonteCarlo.mk_rng (MonteCarlo.draws float_thirds)
                  (MonteCarlo.pos float_thirds + 2 * Z.to_nat 4))
        ∧ ((∃ v, o = Returns v)
           ∨ o = Raises ZeroDivisionError ∨ o = Raises OverflowError)
        ∧ (4 ≠ 0 → dbl_overflow (D:=float) 4 = false → ∃ v, o = Returns v))
  ∧ (∃ d, Euclidean.euclidean_numba1 sample_X sample_Y = Returns d)
  ∧ (∃ d, Euclidean.euclidean_numpy sample_X sample_Y = Returns d)
  ∧ (∃ d, Cityblock.cityblock_python (λ _ _, of_Z 7) sample_X sample_Y = Returns d)
  ∧ (∃ d, Cityblock.cityblock_numba1 (λ _ _, of_Z 7) sample_X sample_Y = Returns d)
  ∧ (∃ out, Julia.julia_set_cython 0%float 0%float 10 4%float
              grid_X grid_Y sample_julia = Returns out).
Proof.
  apply (kernels_terminate 0%float 0%float 10 4%float 4 float_thirds (λ _ _, of_Z 7)
           sample_X sample_Y 2 2 grid_X grid_Y sample_julia 2 2).
  - split; [reflexivity|]. repeat constructor.
  - split; [reflexivity|]. repeat constructor.
  - reflexivity.
  - reflexivity.
  - unfold is_int, int_min, int_max. lia.
  - unfold is_int, int_min, int_max. lia.
  - split; [reflexivity|]. repeat constructor.
  - split; [reflexivity|]. repeat constructor.
  - split; [reflexivity|]. repeat constructor.
  - reflexivity.
  - reflexivity.
  - reflexivity.
Defined.

(** * Further properties of the notebooks' code *)

(** ** Sums over memory views *)

Lemma to_int_le z : 0 ≤ z → to_int z ≤ z.
Proof.
  intros Hz. unfold to_int.
  assert (H : (z + 2 ^ 31) `mod` 2 ^ 32 ≤ z + 2 ^ 31) by (apply Z.mod_le; lia).
  lia.
Qed.

Lemma sum_list_app (l1 l2 : list Qc) :
  MemoryViews.sum_list (l1 ++ l2)
  = (MemoryViews.sum_list l1 + MemoryViews.sum_list l2)%Qc.
Proof.
  unfold MemoryViews.sum_list. induction l1 as [|a l1 IH]; simpl.
  - ring.
  - rewrite IH. ring.
Qed.

(** The loop of [my_sum] after [n] passes over a view of at least [n]
    elements. *)
Lemma my_sum_loop (x : list Qc) (n : nat) (s : Qc) :
  (n ≤ length x)%nat →
  for_each (seqZ 0 (Z.of_nat n))
    (λ i s, v ← MemoryViews.getitem1 x i; mret (s + v)%Qc) s
  = Returns (s + MemoryViews.sum_list (take n x))%Qc.
Proof.
  induction n as [|n IH]; intros Hn.
  - simpl. f_equal. unfold MemoryViews.sum_list. simpl. ring.
  - rewrite seqZ_S, for_each_app, IH by lia. cbn [mbind outcome_bind for_each].
    destruct (lookup_lt_is_Some_2 x n) as [v Hv]; [lia|].
    unfold MemoryViews.getitem1. rewrite Z.add_0_l.
    destruct (decide (Z.of_nat n < 0)) as [|_]; [lia|].
    destruct (decide (0 ≤ Z.of_nat n)) as [_|]; [|lia].
    rewrite Nat2Z.id, Hv. cbn [mbind outcome_bind mret outcome_ret]. f_equal.
    rewrite (take_S_r _ _ _ Hv), sum_list_app.
    unfold MemoryViews.sum_list at 3. simpl. ring.
Qed.

(** X1. [my_sum(x)] never raises: it returns the sum of the first
    [max(0, n)] elements of [x], where [n] is the length of [x] converted
    to the C [int] that holds it. *)
Theorem my_sum_adds_the_first_n (x : list Qc) :
  MemoryViews.my_sum x
  = Returns (MemoryViews.sum_list
               (take (Z.to_nat (to_int (Z.of_nat (length x)))) x)).
Proof.
  unfold MemoryViews.my_sum.
  pose proof (to_int_le (Z.of_nat (length x))) as Hle.
  destruct (decide (0 ≤ to_int (Z.of_nat (length x)))) as [Hn|Hn].
  - rewrite <- (Z2Nat.id (to_int (Z.of_nat (length x)))) at 1 by done.
    rewrite my_sum_loop by lia. f_equal. ring.
  - rewrite seqZ_nil by lia.
    replace (Z.to_nat (to_int (Z.of_nat (length x)))) with 0%nat by lia. done.
Qed.

(** X2. On a view whose length fits a C [int], [my_sum(x)] is the sum
    of all the elements of [x], the value of [x.sum()]. *)
Theorem my_sum_is_the_sum (x : list Qc) :
  is_int (Z.of_nat (length x)) →
  MemoryViews.my_sum x = Returns (MemoryViews.sum_list x).
Proof.
  intros Hn. unfold MemoryViews.my_sum. rewrite to_int_id by done.
  rewrite my_sum_loop by lia. rewrite firstn_all. f_equal. ring.
Qed.

Lemma my_sum_is_the_sum_witness :
  MemoryViews.my_sum [of_Z 1; of_Z 2; of_Z 4]
  = Returns (MemoryViews.sum_list [of_Z 1; of_Z 2; of_Z 4]).
Proof.
  apply (my_sum_is_the_sum [of_Z 1; of_Z 2; of_Z 4]).
  unfold is_int, int_min, int_max. simpl. lia.
Defined.

(** The doubly nested accumulation of [my_sum2d], for any way [get] of
    reading the entries that succeeds inside the array. *)
Lemma sum2d_row (get : Z → outcome Qc) (r : list Qc) (k : nat) (s : Qc) :
  (k ≤ length r)%nat →
  (∀ j v, r !! j = Some v → get (Z.of_nat j) = Returns v) →
  for_each (seqZ 0 (Z.of_nat k)) (λ j s, v ← get j; mret (s + v)%Qc) s
  = Returns (s + MemoryViews.sum_list (take k r))%Qc.
Proof.
  intros Hk Hget. induction k as [|k IH].
  - simpl. f_equal. unfold MemoryViews.sum_list. simpl. ring.
  - rewrite seqZ_S, for_each_app, IH by lia. cbn [mbind outcome_bind for_each].
    destruct (lookup_lt_is_Some_2 r k) as [v Hv]; [lia|].
    rewrite Z.add_0_l, (Hget _ _ Hv). cbn [mbind outcome_bind mret outcome_ret].
    f_equal. rewrite (take_S_r _ _ _ Hv), sum_list_app.
    unfold MemoryViews.sum_list at 3. simpl. ring.
Qed.

Lemma sum2d_loop (get : Z → Z → outcome Qc) (x : ndarray Qc) (n0 n1 k : nat) (s : Qc) :
  well_formed x → shape x = (n0, n1) → (k ≤ n0)%nat →
  (∀ i j v, lookup2 x i j = Some v → get (Z.of_nat i) (Z.of_nat j) = Returns v) →
  for_each (seqZ 0 (Z.of_nat k)) (λ i s,
    for_each (seqZ 0 (Z.of_nat n1)) (λ j s, v ← get i j; mret (s + v)%Qc) s) s
  = Returns (s + MemoryViews.sum_list (concat (take k (rows x))))%Qc.
Proof.
  intros [Hlen Hrows] Hsh Hk Hget. rewrite Hsh in Hlen, Hrows. simpl in Hlen, Hrows.
  induction k as [|k IH].
  - simpl. f_equal. unfold MemoryViews.sum_list. simpl. ring.
  - rewrite seqZ_S, for_each_app, IH by lia. cbn [mbind outcome_bind for_each].
    destruct (lookup_lt_is_Some_2 (rows x) k) as [r Hr]; [lia|].
    pose proof (proj1 (Forall_lookup _ _) Hrows k r Hr) as Hr'. simpl in Hr'.
    rewrite Z.add_0_l.
    rewrite (sum2d_row (get (Z.of_nat k)) r n1) by
      (lia || (intros j v Hv; apply Hget; apply lookup2_Some; eauto)).
    cbn [mbind outcome_bind]. f_equal.
    rewrite <- Hr', firstn_all, (take_S_r _ _ _ Hr), concat_app, sum_list_app.
    simpl. rewrite app_nil_r. ring.
Qed.

(** X3. On a well-formed array whose extents fit the C [int]s [rows]
    and [columns], [my_sum2d] and its variant without bounds checks both
    return the sum of all the entries, the value of [x.sum()]. *)
Theorem my_sum2d_is_the_sum (x : ndarray Qc) (n0 n1 : nat) :
  well_formed x → shape x = (n0, n1) →
  is_int (Z.of_nat n0) → is_int (Z.of_nat n1) →
  MemoryViews.my_sum2d x = Returns (MemoryViews.sum_list (concat (rows x)))
  ∧ MemoryViews.my_sum2d_unchecked x
    = Returns (MemoryViews.sum_list (concat (rows x))).
Proof.
  intros Hwf Hsh H0 H1.
  assert (Hall : take n0 (rows x) = rows x).
  { destruct Hwf as [Hlen _]. rewrite Hsh in Hlen. simpl in Hlen.
    rewrite <- Hlen. apply firstn_all. }
  split.
  - unfold MemoryViews.my_sum2d. rewrite Hsh. cbn [fst snd].
    rewrite !to_int_id by done.
    rewrite (sum2d_loop (MemoryViews.getitem2 x) x n0 n1 n0); [|done|done|lia|].
    + rewrite Hall. f_equal. ring.
    + intros i j v Hv. unfold MemoryViews.getitem2. rewrite Hsh. cbn [fst snd].
      destruct (decide (Z.of_nat i < 0)) as [|_]; [lia|].
      destruct (decide (Z.of_nat j < 0)) as [|_]; [lia|].
      assert (Hin : (i < n0)%nat ∧ (j < n1)%nat).
      { destruct (decide ((i < n0)%nat ∧ (j < n1)%nat)) as [|Hout]; [done|].
        rewrite lookup2_out_of_range in Hv by (done || by rewrite Hsh). done. }
      destruct (decide _) as [_|Hno]; [|lia].
      by rewrite !Nat2Z.id, Hv.
  - unfold MemoryViews.my_sum2d_unchecked. rewrite Hsh. cbn [fst snd].
    rewrite !to_int_id by done.
    rewrite (sum2d_loop (λ i j, getitem_unchecked x (Z.to_nat i) (Z.to_nat j)) x n0 n1 n0);
      [|done|done|lia|].
    + rewrite Hall. f_equal. ring.
    + intros i j v Hv. unfold getitem_unchecked. by rewrite !Nat2Z.id, Hv.
Qed.

Lemma my_sum2d_is_the_sum_witness :
  MemoryViews.my_sum2d sample_x
  = Returns (MemoryViews.sum_list (concat (rows sample_x)))
  ∧ MemoryViews.my_sum2d_unchecked sample_x
    = Returns (MemoryViews.sum_list (concat (rows sample_x))).
Proof.
  apply (my_sum2d_is_the_sum sample_x 2 3).
  - split; [reflexivity|]. repeat constructor.
  - reflexivity.
  - unfold is_int, int_min, int_max. lia.
  - unfold is_int, int_min, int_max. lia.
Defined.

Example my_sum2d_sample : MemoryViews.my_sum2d sample_x = Returns (of_Z 21).
Proof. vm_compute. reflexivity. Qed.

(** ** The distance kernels written with NumPy row operations *)

(** A sum over the positions of a list is the left-to-right sum of the
    list. *)
Lemma np_sum_snoc (l : list Qc) (a : Qc) :
  RowKernels.np_sum (l ++ [a]) = (RowKernels.np_sum l + a)%Qc.
Proof. unfold RowKernels.np_sum. by rewrite foldl_app. Qed.

Lemma np_sum_sum_range (l : list Qc) (f : nat → Qc) :
  (∀ k v, l !! k = Some v → f k = v) →
  RowKernels.np_sum l = sum_range (length l) f.
Proof.
  induction l as [|a l IH] using rev_ind; intros Hf; [done|].
  rewrite np_sum_snoc, length_app, Nat.add_1_r, sum_range_S. f_equal.
  - apply IH. intros k v Hk. apply Hf. by apply lookup_app_l_Some.
  - symmetry. apply Hf. rewrite lookup_app_r by lia.
    by rewrite Nat.sub_diag.
Qed.

Lemma row_entry (a : ndarray Qc) i r k v :
  rows a !! i = Some r → r !! k = Some v → entry a i k = v.
Proof. intros Hr Hv. unfold entry, lookup2. by rewrite Hr; simpl; rewrite Hv. Qed.

(** What one cell of the row kernels computes, on rows of one length. *)
Lemma row_difference (op : Qc → Qc) (x y : ndarray Qc) (i j m : nat) rx ry :
  rows x !! i = Some rx → rows y !! j = Some ry →
  length rx = m → length ry = m →
  ∃ d, RowKernels.broadcast1 Qcminus rx ry = Returns d
     ∧ RowKernels.np_sum (op <$> d)
       = sum_range m (λ k, op (entry x i k - entry y j k)%Qc).
Proof.
  intros Hrx Hry Hlx Hly. exists (zip_with Qcminus rx ry). split.
  - unfold RowKernels.broadcast1. rewrite decide_True by congruence. done.
  - rewrite (np_sum_sum_range _ (λ k, op (entry x i k - entry y j k)%Qc)).
    + rewrite length_fmap, length_zip_with. f_equal. lia.
    + intros k v Hv. rewrite list_lookup_fmap in Hv.
      destruct (zip_with Qcminus rx ry !! k) as [w|] eqn:Hw; [|done].
      simpl in Hv. injection Hv as <-.
      apply lookup_zip_with_Some in Hw as (a & b & -> & Ha & Hb).
      by rewrite (row_entry x i rx k a), (row_entry y j ry k b).
Qed.

Lemma well_formed_row (a : ndarray Qc) i :
  well_formed a → (i < (shape a).1)%nat →
  ∃ r, rows a !! i = Some r ∧ length r = (shape a).2.
Proof.
  intros [Hlen Hrows] Hi.
  destruct (lookup_lt_is_Some_2 (rows a) i) as [r Hr]; [lia|].
  exists r. split; [done|]. by apply (proj1 (Forall_lookup _ _) Hrows i r Hr).
Qed.

Lemma euclidean_numba2_is_tabulate (x y : ndarray Qc) (N m : nat) :
  well_formed x → shape x = (N, m) →
  well_formed y → (N ≤ (shape y).1)%nat → (shape y).2 = m →
  RowKernels.euclidean_numba2 x y = Returns (tabulate N N (sq_dist m x y)).
Proof.
  intros Hx Hsx Hy HN Hm. unfold RowKernels.euclidean_numba2. rewrite Hsx.
  destruct (fill_loop N N
    (λ i j dist_matrix,
       xi ← RowKernels.row_unchecked x i;
       yj ← RowKernels.row_unchecked y j;
       d ← RowKernels.broadcast1 Qcminus xi yj;
       setitem_unchecked dist_matrix i j (RowKernels.np_sum ((λ a, a ^ 2)%Qc <$> d)))
    (sq_dist m x y) (np_zeros (N, N)))
    as (d & Hrun & Hsh & Hwf & Hent); [apply np_zeros_well_formed|done|done| |].
  - intros i j a0 a' Hi Hj Hup.
    destruct (well_formed_row x i Hx) as (rx & Hrx & Hlx); [by rewrite Hsx|].
    destruct (well_formed_row y j Hy) as (ry & Hry & Hly); [lia|].
    rewrite Hsx in Hlx. simpl in Hlx. rewrite Hm in Hly.
    destruct (row_difference (λ a, a ^ 2)%Qc x y i j m rx ry Hrx Hry Hlx Hly)
      as (df & Hdf & Hsum).
    unfold RowKernels.row_unchecked. rewrite Hrx, Hry. cbn [mbind outcome_bind].
    rewrite Hdf. cbn [mbind outcome_bind]. rewrite Hsum.
    fold (sq_dist m x y i j). unfold setitem_unchecked. by rewrite Hup.
  - rewrite Hrun. f_equal. apply ndarray_is_tabulate; [done|done|].
    intros i j Hi Hj. by rewrite Hent, decide_True.
Qed.

Lemma cityblock_numba2_is_tabulate junk (x y : ndarray Qc) (N m : nat) :
  well_formed x → shape x = (N, m) →
  well_formed y → (N ≤ (shape y).1)%nat → (shape y).2 = m →
  RowKernels.cityblock_numba2 junk x y = Returns (tabulate N N (abs_dist m x y)).
Proof.
  intros Hx Hsx Hy HN Hm. unfold RowKernels.cityblock_numba2. rewrite Hsx.
  destruct (fill_loop N N
    (λ i j dist_matrix,
       xi ← RowKernels.row_unchecked x i;
       yj ← RowKernels.row_unchecked y j;
       d ← RowKernels.broadcast1 Qcminus xi yj;
       setitem_unchecked dist_matrix i j (RowKernels.norm1 d))
    (abs_dist m x y) (np_empty junk (N, N)))
    as (d & Hrun & Hsh & Hwf & Hent); [apply tabulate_well_formed|done|done| |].
  - intros i j a0 a' Hi Hj Hup.
    destruct (well_formed_row x i Hx) as (rx & Hrx & Hlx); [by rewrite Hsx|].
    destruct (well_formed_row y j Hy) as (ry & Hry & Hly); [lia|].
    rewrite Hsx in Hlx. simpl in Hlx. rewrite Hm in Hly.
    destruct (row_difference Qcabs x y i j m rx ry Hrx Hry Hlx Hly)
      as (df & Hdf & Hsum).
    unfold RowKernels.row_unchecked. rewrite Hrx, Hry. cbn [mbind outcome_bind].
    rewrite Hdf. cbn [mbind outcome_bind]. unfold RowKernels.norm1. rewrite Hsum.
    fold (abs_dist m x y i j). unfold setitem_unchecked. by rewrite Hup.
  - rewrite Hrun. f_equal. apply ndarray_is_tabulate; [done|done|].
    intros i j Hi Hj. by rewrite Hent, decide_True.
Qed.

(** X4. On well-formed matrices of one shape, or with further rows in
    [y], [euclidean_numba2] returns the matrix that [euclidean_numba1]
    returns. *)
Theorem euclidean_numba2_agrees_with_numba1 (x y : ndarray Qc) (N m : nat) :
  well_formed x → shape x = (N, m) →
  well_formed y → (N ≤ (shape y).1)%nat → (shape y).2 = m →
  ∃ d, RowKernels.euclidean_numba2 x y = Returns d
     ∧ Euclidean.euclidean_numba1 x y = Returns d.
Proof.
  intros Hx Hsx Hy HN Hm. exists (tabulate N N (sq_dist m x y)). split.
  - by apply euclidean_numba2_is_tabulate.
  - apply euclidean_numba1_is_tabulate; (done || lia).
Qed.

Lemma euclidean_numba2_agrees_with_numba1_witness :
  ∃ d, RowKernels.euclidean_numba2 sample_x sample_y = Returns d
     ∧ Euclidean.euclidean_numba1 sample_x sample_y = Returns d.
Proof.
  apply (euclidean_numba2_agrees_with_numba1 sample_x sample_y 2 3).
  - split; [reflexivity|]. repeat constructor.
  - reflexivity.
  - split; [reflexivity|]. repeat constructor.
  - simpl. lia.
  - reflexivity.
Defined.

(** X5. On well-formed matrices of one shape, or with further rows in
    [y], [cityblock_numba2] returns the matrix that [cityblock_numba1] and
    [cityblock_python] return, whatever [np.empty] handed out. *)
Theorem cityblock_numba2_agrees_with_numba1
    (junk junk' junk'' : nat → nat → Qc) (x y : ndarray Qc) (N m : nat) :
  well_formed x → shape x = (N, m) →
  well_formed y → (N ≤ (shape y).1)%nat → (shape y).2 = m →
  ∃ d, RowKernels.cityblock_numba2 junk x y = Returns d
     ∧ Cityblock.cityblock_numba1 junk' x y = Returns d
     ∧ Cityblock.cityblock_python junk'' x y = Returns d.
Proof.
  intros Hx Hsx Hy HN Hm. exists (tabulate N N (abs_dist m x y)).
  split; [|split].
  - by apply cityblock_numba2_is_tabulate.
  - apply cityblock_numba1_is_tabulate; (done || lia).
  - apply cityblock_python_is_tabulate; (done || lia).
Qed.

Lemma cityblock_numba2_agrees_with_numba1_witness :
  ∃ d, RowKernels.cityblock_numba2 (λ _ _, of_Z 7) sample_x sample_y = Returns d
     ∧ Cityblock.cityblock_numba1 (λ _ _, of_Z 8) sample_x sample_y = Returns d
     ∧ Cityblock.cityblock_python (λ _ _, of_Z 9) sample_x sample_y = Returns d.
Proof.
  apply (cityblock_numba2_agrees_with_numba1
           (λ _ _, of_Z 7) (λ _ _, of_Z 8) (λ _ _, of_Z 9) sample_x sample_y 2 3).
  - split; [reflexivity|]. repeat constructor.
  - reflexivity.
  - split; [reflexivity|]. repeat constructor.
  - simpl. lia.
  - reflexivity.
Defined.

Lemma row_difference_single (op : Qc → Qc) (x : ndarray Qc) (i : nat) rx (b : Qc) :
  rows x !! i = Some rx →
  ∃ d, RowKernels.broadcast1 Qcminus rx [b] = Returns d
     ∧ RowKernels.np_sum (op <$> d)
       = sum_range (length rx) (λ k, op (entry x i k - b)%Qc).
Proof.
  intros Hrx. exists ((λ a, a - b)%Qc <$> rx). split.
  - unfold RowKernels.broadcast1.
    destruct rx as [|a [|a' rx']]; destruct (decide _) as [He|Hne];
      try done; try (simpl in He; lia).
  - rewrite (np_sum_sum_range _ (λ k, op (entry x i k - b)%Qc)).
    + by rewrite !length_fmap.
    + intros k v Hv. rewrite !list_lookup_fmap in Hv.
      destruct (rx !! k) as [a|] eqn:Ha; [|done]. simpl in Hv. injection Hv as <-.
      by rewrite (row_entry x i rx k a).
Qed.

(** X6. With a [y] of a single column, [euclidean_numba2] stretches
    that column over the features of [x]: entry [(i, j)] is the sum over
    [k < m] of [(x[i][k] - y[j][0])^2]. [euclidean_numba1] reads
    [y[j][k]] itself and, for two features or more, leaves [y]. *)
Theorem euclidean_numba2_broadcasts_single_column (x y : ndarray Qc) (N m : nat) :
  well_formed x → shape x = (N, m) →
  well_formed y → (N ≤ (shape y).1)%nat → (shape y).2 = 1%nat →
  RowKernels.euclidean_numba2 x y
  = Returns (tabulate N N (λ i j,
      sum_range m (λ k, (entry x i k - entry y j 0) ^ 2)%Qc))
  ∧ ((1 ≤ N)%nat → (2 ≤ m)%nat → Euclidean.euclidean_numba1 x y = Undefined).
Proof.
  intros Hx Hsx Hy HN Hm. split.
  - unfold RowKernels.euclidean_numba2. rewrite Hsx.
    destruct (fill_loop N N
      (λ i j dist_matrix,
         xi ← RowKernels.row_unchecked x i;
         yj ← RowKernels.row_unchecked y j;
         d ← RowKernels.broadcast1 Qcminus xi yj;
         setitem_unchecked dist_matrix i j (RowKernels.np_sum ((λ a, a ^ 2)%Qc <$> d)))
      (λ i j, sum_range m (λ k, (entry x i k - entry y j 0) ^ 2)%Qc)
      (np_zeros (N, N)))
      as (d & Hrun & Hsh & Hwf & Hent); [apply np_zeros_well_formed|done|done| |].
    + intros i j a0 a' Hi Hj Hup.
      destruct (well_formed_row x i Hx) as (rx & Hrx & Hlx); [by rewrite Hsx|].
      destruct (well_formed_row y j Hy) as (ry & Hry & Hly); [lia|].
      rewrite Hsx in Hlx. simpl in Hlx. rewrite Hm in Hly.
      destruct ry as [|b [|b' ry']]; try discriminate Hly.
      destruct (row_difference_single (λ a, a ^ 2)%Qc x i rx b Hrx)
        as (df & Hdf & Hsum).
      unfold RowKernels.row_unchecked. rewrite Hrx, Hry. cbn [mbind outcome_bind].
      rewrite Hdf. cbn [mbind outcome_bind]. rewrite Hsum, Hlx.
      rewrite (row_entry y j [b] 0 b Hry eq_refl) in Hup.
      unfold setitem_unchecked. by rewrite Hup.
    + rewrite Hrun. f_equal. apply ndarray_is_tabulate; [done|done|].
      intros i j Hi Hj. by rewrite Hent, decide_True.
  - intros H1 H2. unfold Euclidean.euclidean_numba1. rewrite Hsx.
    destruct N as [|N']; [lia|]. destruct m as [|[|m']]; [lia|lia|].
    destruct (well_formed_row x 0 Hx) as (rx & Hrx & Hlx); [rewrite Hsx; simpl; lia|].
    destruct (well_formed_row y 0 Hy) as (ry & Hry & Hly); [lia|].
    rewrite Hsx in Hlx. simpl in Hlx. rewrite Hm in Hly.
    destruct ry as [|b [|b' ry']]; try discriminate Hly.
    destruct rx as [|a0 [|a1 rx']]; try discriminate Hlx.
    change (seq 0 (S N')) with (0%nat :: seq 1 N').
    change (seq 0 (S (S m'))) with (0%nat :: 1%nat :: seq 2 m').
    assert (Hx0 : getitem_unchecked x 0 0 = Returns a0)
      by (unfold getitem_unchecked, lookup2; by rewrite Hrx).
    assert (Hx1 : getitem_unchecked x 0 1 = Returns a1)
      by (unfold getitem_unchecked, lookup2; by rewrite Hrx).
    assert (Hy0 : getitem_unchecked y 0 0 = Returns b)
      by (unfold getitem_unchecked, lookup2; by rewrite Hry).
    assert (Hy1 : getitem_unchecked y 0 1 = Undefined)
      by (unfold getitem_unchecked, lookup2; by rewrite Hry).
    cbn [for_each]. rewrite Hx0, Hy0. cbn [mbind outcome_bind mret outcome_ret].
    rewrite Hx1, Hy1. reflexivity.
Qed.

Lemma euclidean_numba2_broadcasts_single_column_witness :
  RowKernels.euclidean_numba2 sample_x sample_column
  = Returns (tabulate 2 2 (λ i j,
      sum_range 3 (λ k, (entry sample_x i k - entry sample_column j 0) ^ 2)%Qc))
  ∧ ((1 ≤ 2)%nat → (2 ≤ 3)%nat →
     Euclidean.euclidean_numba1 sample_x sample_column
     = Undefined).
Proof.
  apply (euclidean_numba2_broadcasts_single_column
           sample_x sample_column 2 3).
  - split; [reflexivity|]. repeat constructor.
  - reflexivity.
  - split; [reflexivity|]. repeat constructor.
  - simpl. lia.
  - reflexivity.
Defined.

(** ** The distance matrix of a set of points with itself *)

Lemma sum_range_zero n (f : nat → Qc) :
  (∀ k, (k < n)%nat → f k = 0%Qc) → sum_range n f = 0%Qc.
Proof.
  induction n as [|n IH]; intros Hf; [done|].
  rewrite sum_range_S, IH, Hf by (intros; (apply Hf || idtac); lia). ring.
Qed.

Lemma sum_range_le n (f g : nat → Qc) :
  (∀ k, (k < n)%nat → (f k ≤ g k)%Qc) → (sum_range n f ≤ sum_range n g)%Qc.
Proof.
  induction n as [|n IH]; intros Hfg; [apply Qcle_refl|].
  rewrite !sum_range_S. apply Qcplus_le_compat.
  - apply IH. intros k Hk. apply Hfg. lia.
  - apply Hfg. lia.
Qed.

Lemma sum_range_plus n (f g : nat → Qc) :
  sum_range n (λ k, f k + g k)%Qc = (sum_range n f + sum_range n g)%Qc.
Proof.
  induction n as [|n IH]; [unfold sum_range; simpl; ring|].
  rewrite !sum_range_S, IH. ring.
Qed.

Lemma sq_dist_sym m (x y : ndarray Qc) i j : sq_dist m x y i j = sq_dist m y x j i.
Proof.
  unfold sq_dist. apply sum_range_ext. intros k _. simpl. ring.
Qed.

Lemma sq_dist_diag m (x : ndarray Qc) i : sq_dist m x x i i = 0%Qc.
Proof.
  unfold sq_dist. apply sum_range_zero. intros k _. simpl. ring.
Qed.

Lemma abs_dist_sym m (x y : ndarray Qc) i j : abs_dist m x y i j = abs_dist m y x j i.
Proof.
  unfold abs_dist. apply sum_range_ext. intros k _. apply Qcabs_Qcminus.
Qed.

Lemma abs_dist_diag m (x : ndarray Qc) i : abs_dist m x x i i = 0%Qc.
Proof.
  unfold abs_dist. apply sum_range_zero. intros k _.
  replace (entry x i k - entry x i k)%Qc with 0%Qc by ring.
  apply Qcabs_pos, Qcle_refl.
Qed.

Lemma abs_dist_nonneg m (x y : ndarray Qc) i j : (0 ≤ abs_dist m x y i j)%Qc.
Proof.
  unfold abs_dist. rewrite <- (sum_range_zero m (λ _, 0%Qc)) at 1 by done.
  apply sum_range_le. intros k _. apply Qcabs_nonneg.
Qed.

Lemma abs_dist_triangle m (x : ndarray Qc) i j l :
  (abs_dist m x x i l ≤ abs_dist m x x i j + abs_dist m x x j l)%Qc.
Proof.
  unfold abs_dist. rewrite <- sum_range_plus. apply sum_range_le. intros k _.
  replace (entry x i k - entry x l k)%Qc
    with ((entry x i k - entry x j k) + (entry x j k - entry x l k))%Qc by ring.
  apply Qcabs_triangle.
Qed.

(** X7. For a well-formed [x], the matrix that [euclidean_numpy(x, x)]
    and [euclidean_numba1(x, x)] return has a zero diagonal, is symmetric
    and has no negative entry. *)
Theorem euclidean_self_distance (x : ndarray Qc) (N m : nat) :
  well_formed x → shape x = (N, m) →
  ∃ d, Euclidean.euclidean_numpy x x = Returns d
     ∧ Euclidean.euclidean_numba1 x x = Returns d
     ∧ ∀ i j, (i < N)%nat → (j < N)%nat →
         lookup2 d i i = Some 0%Qc
         ∧ lookup2 d i j = lookup2 d j i
         ∧ ∃ v, lookup2 d i j = Some v ∧ (0 ≤ v)%Qc.
Proof.
  intros Hx Hsx. exists (tabulate N N (sq_dist m x x)).
  split; [by apply euclidean_numpy_is_tabulate|].
  split; [apply euclidean_numba1_is_tabulate; rewrite ?Hsx; done|].
  intros i j Hi Hj. rewrite !lookup2_tabulate, !decide_True by done.
  split; [by rewrite sq_dist_diag|]. split; [by rewrite sq_dist_sym|].
  eexists. split; [done|]. apply sum_squares_nonneg.
Qed.

Lemma euclidean_self_distance_witness :
  ∃ d, Euclidean.euclidean_numpy sample_x sample_x = Returns d
     ∧ Euclidean.euclidean_numba1 sample_x sample_x = Returns d
     ∧ ∀ i j, (i < 2)%nat → (j < 2)%nat →
         lookup2 d i i = Some 0%Qc
         ∧ lookup2 d i j = lookup2 d j i
         ∧ ∃ v, lookup2 d i j = Some v ∧ (0 ≤ v)%Qc.
Proof.
  apply (euclidean_self_distance sample_x 2 3).
  - split; [reflexivity|]. repeat constructor.
  - reflexivity.
Defined.

(** X8. In exact arithmetic, for a well-formed [x], the matrix that
    the cityblock kernels return on [(x, x)] is a metric on the rows of
    [x]: zero on the diagonal, symmetric, without negative entries, and
    obeying the triangle inequality. (In doubles rounding can break the
    triangle inequality.) *)
Theorem cityblock_self_distance
    (junk : nat → nat → Qc) (x : ndarray Qc) (N m : nat) :
  well_formed x → shape x = (N, m) →
  ∃ d, Cityblock.cityblock_python junk x x = Returns d
     ∧ Cityblock.cityblock_numba1 junk x x = Returns d
     ∧ ∀ i j l, (i < N)%nat → (j < N)%nat → (l < N)%nat →
         ∃ dij djl dil,
           lookup2 d i j = Some dij ∧ lookup2 d j l = Some djl
           ∧ lookup2 d i l = Some dil
           ∧ lookup2 d i i = Some 0%Qc
           ∧ lookup2 d j i = Some dij
           ∧ (0 ≤ dij)%Qc
           ∧ (dil ≤ dij + djl)%Qc.
Proof.
  intros Hx Hsx. exists (tabulate N N (abs_dist m x x)).
  split; [apply cityblock_python_is_tabulate; rewrite ?Hsx; done|].
  split; [apply cityblock_numba1_is_tabulate; rewrite ?Hsx; done|].
  intros i j l Hi Hj Hl. rewrite !lookup2_tabulate, !decide_True by done.
  exists (abs_dist m x x i j), (abs_dist m x x j l), (abs_dist m x x i l).
  split; [done|]. split; [done|]. split; [done|].
  split; [by rewrite abs_dist_diag|]. split; [by rewrite (abs_dist_sym m x x j i)|].
  split; [apply abs_dist_nonneg|apply abs_dist_triangle].
Qed.

Lemma cityblock_self_distance_witness :
  ∃ d, Cityblock.cityblock_python (λ _ _, of_Z 7) sample_x sample_x = Returns d
     ∧ Cityblock.cityblock_numba1 (λ _ _, of_Z 7) sample_x sample_x = Returns d
     ∧ ∀ i j l, (i < 2)%nat → (j < 2)%nat → (l < 2)%nat →
         ∃ dij djl dil,
           lookup2 d i j = Some dij ∧ lookup2 d j l = Some djl
           ∧ lookup2 d i l = Some dil
           ∧ lookup2 d i i = Some 0%Qc
           ∧ lookup2 d j i = Some dij
           ∧ (0 ≤ dij)%Qc
           ∧ (dil ≤ dij + djl)%Qc.
Proof.
  apply (cityblock_self_distance (λ _ _, of_Z 7) sample_x 2 3).
  - split; [reflexivity|]. repeat constructor.
  - reflexivity.
Defined.

(** ** [euclidean_numpy] on matrices of different shapes *)

Lemma euclidean_numpy_rectangular (x y : ndarray Qc) (N N' m : nat) :
  well_formed x → well_formed y → shape x = (N, m) → shape y = (N', m) →
  Euclidean.euclidean_numpy x y = Returns (tabulate N N' (sq_dist m x y)).
Proof.
  intros Hx Hy Hsx Hsy. unfold Euclidean.euclidean_numpy.
  rewrite (einsum_self x N m Hsx), (einsum_self y N' m Hsy).
  cbn [mbind outcome_bind].
  set (x2 := newaxis _). set (y2 := transpose (newaxis _)).
  rewrite (np_dot_returns x (transpose y) N m N' Hsx)
    by (unfold transpose; simpl; by rewrite Hsy).
  cbn [mbind outcome_bind].
  rewrite (broadcast_returns Qcplus x2 y2 N 1 1 N' N N');
    [|apply shape_newaxis_seq
     |unfold y2, transpose; by rewrite shape_newaxis_seq
     |apply broadcast_dim_1_r|apply broadcast_dim_1_l].
  cbn [mbind outcome_bind].
  rewrite (broadcast_returns Qcminus _ _ N N' N N' N N');
    [|done|done|apply broadcast_dim_same..].
  cbn [mbind outcome_bind mret outcome_ret]. f_equal.
  unfold np_abs. rewrite !map_array_tabulate.
  apply tabulate_ext. intros i j Hi Hj.
  rewrite !broadcast_index_lt by done.
  rewrite !entry_tabulate by done.
  rewrite !broadcast_index_lt by done.
  rewrite !broadcast_index_1.
  unfold x2, y2, transpose. rewrite shape_newaxis_seq. simpl fst; simpl snd.
  rewrite ?broadcast_index_lt by done.
  rewrite (entry_tabulate 1 N') by (done || lia).
  rewrite !entry_newaxis by done.
  rewrite (sum_range_ext m
             (λ k, entry x i k
                   * entry (tabulate (shape y).2 (shape y).1 (λ i0 j0, entry y j0 i0)) k j)%Qc
             (λ k, entry x i k * entry y j k)%Qc).
  - unfold sq_dist. rewrite sum_squares_expand. apply Qcabs_pos.
    rewrite <- sum_squares_expand. apply sum_squares_nonneg.
  - intros k Hk. rewrite entry_tabulate by (rewrite Hsy; simpl; lia). done.
Qed.

(** X9. [euclidean_numpy] checks what the loops of [euclidean_numba1]
    do not: when [x] and [y] differ in their number of columns it raises
    [ValueError] (from [np.dot]). *)
Theorem euclidean_numpy_rejects_column_mismatch (x y : ndarray Qc) :
  (shape x).2 ≠ (shape y).2 →
  Euclidean.euclidean_numpy x y = Raises ValueError.
Proof.
  intros Hne. unfold Euclidean.euclidean_numpy, einsum_ij_ij_i.
  rewrite !decide_True by done. cbn [mbind outcome_bind].
  unfold np_dot. rewrite decide_False; [done|].
  unfold transpose, tabulate. simpl. done.
Qed.

Lemma euclidean_numpy_rejects_column_mismatch_witness :
  Euclidean.euclidean_numpy sample_x sample_column = Raises ValueError.
Proof.
  apply (euclidean_numpy_rejects_column_mismatch sample_x sample_column).
  simpl. lia.
Defined.

(** X10. When [y] has [N'] rows, [euclidean_numpy] returns an [N x N']
    matrix, while [euclidean_numba1] sizes its result by [x] alone: for
    [N <= N'] it returns an [N x N] matrix, which in exact arithmetic is
    the leading [N x N] block of the former. (In doubles the two
    formulas round differently, and the entries agree up to rounding
    only.) *)
Theorem euclidean_numba1_is_leading_block (x y : ndarray Qc) (N N' m : nat) :
  well_formed x → well_formed y → shape x = (N, m) → shape y = (N', m) →
  (N ≤ N')%nat →
  ∃ dp dn,
    Euclidean.euclidean_numpy x y = Returns dp ∧ shape dp = (N, N')
    ∧ Euclidean.euclidean_numba1 x y = Returns dn ∧ shape dn = (N, N)
    ∧ ∀ i j, (i < N)%nat → (j < N)%nat →
        is_Some (lookup2 dn i j) ∧ lookup2 dn i j = lookup2 dp i j.
Proof.
  intros Hx Hy Hsx Hsy HN.
  exists (tabulate N N' (sq_dist m x y)), (tabulate N N (sq_dist m x y)).
  split; [by apply euclidean_numpy_rectangular|]. split; [done|].
  split; [apply euclidean_numba1_is_tabulate; rewrite ?Hsy; simpl; (done || lia)|].
  split; [done|]. intros i j Hi Hj.
  rewrite !lookup2_tabulate, !decide_True by (split; lia). eauto.
Qed.

Lemma euclidean_numba1_is_leading_block_witness :
  ∃ dp dn,
    Euclidean.euclidean_numpy (matrix_of (1%nat, 3%nat) [[1; 2; 3]]) sample_y
    = Returns dp ∧ shape dp = (1%nat, 2%nat)
    ∧ Euclidean.euclidean_numba1 (matrix_of (1%nat, 3%nat) [[1; 2; 3]]) sample_y
      = Returns dn ∧ shape dn = (1%nat, 1%nat)
    ∧ ∀ i j, (i < 1)%nat → (j < 1)%nat →
        is_Some (lookup2 dn i j) ∧ lookup2 dn i j = lookup2 dp i j.
Proof.
  apply (euclidean_numba1_is_leading_block
           (matrix_of (1%nat, 3%nat) [[1; 2; 3]]) sample_y 1 2 3).
  - split; [reflexivity|]. repeat constructor.
  - split; [reflexivity|]. repeat constructor.
  - reflexivity.
  - reflexivity.
  - lia.
Defined.

(** ** [cy_range], and [CyRangeVector] across zero *)

(** The values an unsigned counter takes between two bounds of one sign,
    read back as [int]s. *)
Lemma to_int_urange start end_ :
  is_int start → is_int end_ → ¬ (start < 0 ≤ end_) → ¬ (end_ < 0 ≤ start) →
  to_int <$> urange start end_ = seqZ start (end_ - start).
Proof.
  intros Hs He H1 H2.
  pose proof (is_int_bounds _ Hs). pose proof (is_int_bounds _ He).
  assert (Hlen : to_uint end_ - to_uint start = end_ - start).
  { destruct (decide (0 ≤ start)).
    - rewrite (to_uint_nonneg start), (to_uint_nonneg end_) by lia. done.
    - rewrite (to_uint_neg start), (to_uint_neg end_) by lia. lia. }
  unfold urange. rewrite Hlen. apply list_eq. intros k.
  rewrite list_lookup_fmap.
  destruct (decide (Z.of_nat k < end_ - start)) as [Hk|Hk].
  - rewrite !lookup_seqZ_lt by done. simpl. f_equal.
    destruct (decide (0 ≤ start)).
    + rewrite to_uint_nonneg by lia. apply to_int_id. int_range.
    + rewrite to_uint_neg by lia. unfold to_int.
      replace (start + 2 ^ 32 + Z.of_nat k + 2 ^ 31)
        with (start + Z.of_nat k + 2 ^ 31 + 1 * 2 ^ 32) by lia.
      rewrite Z.mod_add by lia. rewrite Z.mod_small; lia.
  - rewrite !lookup_seqZ_ge by lia. done.
Qed.

(** X11. For C [int] bounds of one sign (both non-negative or both
    negative), [cy_range(start, end)] is Python's
    [list(range(start, end))]; in particular it is empty when
    [end <= start]. *)
Theorem cy_range_is_range (start end_ : Z) :
  is_int start → is_int end_ →
  (0 ≤ start ∧ 0 ≤ end_) ∨ (start < 0 ∧ end_ < 0) →
  CyRange.cy_range start end_ = Returns (CyRange.py_range start end_).
Proof.
  intros Hs He Hsign. unfold CyRange.cy_range, CyRange.py_range.
  rewrite cpp_fill. simpl. f_equal. apply to_int_urange; (done || lia).
Qed.

Lemma cy_range_is_range_witness :
  CyRange.cy_range 1 10 = Returns (CyRange.py_range 1 10).
Proof.
  apply (cy_range_is_range 1 10).
  - unfold is_int, int_min, int_max. lia.
  - unfold is_int, int_min, int_max. lia.
  - lia.
Defined.

Example notebook_cy_range :
  CyRange.cy_range 1 10 = Returns [1; 2; 3; 4; 5; 6; 7; 8; 9].
Proof. vm_compute. reflexivity. Qed.

(** X12. Across zero the unsigned loop counter of [cy_range] departs
    from [range]: for [start < 0 <= end] the result is empty although
    [range(start, end)] is not, and for [end < 0 <= start] the result has
    [2^32 + end - start] elements although [range(start, end)] is empty
    (the vector is taken to grow as far as the loop asks). *)
Theorem cy_range_across_zero (start end_ : Z) :
  is_int start → is_int end_ →
  (start < 0 ≤ end_ →
     CyRange.cy_range start end_ = Returns []
     ∧ CyRange.py_range start end_ ≠ [])
  ∧ (end_ < 0 ≤ start →
     (∃ l, CyRange.cy_range start end_ = Returns l
           ∧ Z.of_nat (length l) = 2 ^ 32 + end_ - start)
     ∧ CyRange.py_range start end_ = []).
Proof.
  intros Hs He.
  pose proof (is_int_bounds _ Hs). pose proof (is_int_bounds _ He).
  unfold CyRange.cy_range, CyRange.py_range. rewrite cpp_fill. split.
  - intros Hx. rewrite urange_crossing by done. split; [done|].
    rewrite seqZ_cons by lia. done.
  - intros Hx. split.
    + eexists. split; [done|]. simpl. unfold urange.
      rewrite length_fmap, length_seqZ.
      rewrite (to_uint_nonneg start), (to_uint_neg end_) by lia. lia.
    + apply seqZ_nil. lia.
Qed.

Lemma cy_range_across_zero_witness :
  (-2 < 0 ≤ 3 →
     CyRange.cy_range (-2) 3 = Returns []
     ∧ CyRange.py_range (-2) 3 ≠ [])
  ∧ (3 < 0 ≤ -2 →
     (∃ l, CyRange.cy_range (-2) 3 = Returns l
           ∧ Z.of_nat (length l) = 2 ^ 32 + 3 - -2)
     ∧ CyRange.py_range (-2) 3 = []).
Proof.
  apply (cy_range_across_zero (-2) 3).
  - unfold is_int, int_min, int_max. lia.
  - unfold is_int, int_min, int_max. lia.
Defined.

(** X13. A [CyRangeVector] built with [start < 0 <= end] holds none of
    its range: the loop of [__cinit__] does not run, so in the
    [malloc]-backed variant every index inside the declared size reads
    memory that was never written, and the C++ variant is empty and
    answers [None] to every index. *)
Theorem range_vector_across_zero (start end_ i : Z) :
  is_int start → is_int end_ → is_int i →
  start < 0 ≤ end_ → end_ - start ≤ int_max →
  (∃ v, RangeVectorMalloc.cinit start end_ = Returns v
        ∧ (0 ≤ i < end_ - start → RangeVectorMalloc.getitem v i = Undefined))
  ∧ (∃ v, RangeVectorCpp.cinit start end_ = Returns v
          ∧ RangeVectorCpp.getitem v i = Returns PyNone).
Proof.
  intros Hs He Hi Hx Hsz.
  pose proof (is_int_bounds _ Hs). pose proof (is_int_bounds _ He).
  pose proof (is_int_bounds _ Hi). unfold int_max in Hsz.
  split.
  - unfold RangeVectorMalloc.cinit.
    destruct (decide (start >= end_)) as [|_]; [lia|].
    rewrite urange_crossing by done. cbn [for_each mbind outcome_bind mret outcome_ret].
    eexists. split; [done|]. intros Hin.
    unfold RangeVectorMalloc.getitem. cbn [RangeVectorMalloc.size RangeVectorMalloc.data].
    rewrite to_int_id by int_range.
    destruct (decide _) as [|_]; [lia|].
    unfold RangeVectorMalloc.malloc, to_size_t, sizeof_int, ptrdiff_max.
    rewrite (Z.mod_small (end_ - start)) by lia.
    rewrite (Z.mod_small ((end_ - start) * 4)) by lia.
    destruct (decide _) as [_|]; [|lia].
    rewrite Z.div_mul by lia. unfold RangeVectorMalloc.load.
    destruct (decide (0 ≤ i)) as [_|]; [|lia].
    rewrite lookup_replicate_2 by lia. done.
  - rewrite cpp_cinit_returns by lia. eexists. split; [done|].
    unfold RangeVectorCpp.getitem. cbn [RangeVectorCpp.data].
    rewrite urange_crossing by done. simpl.
    destruct (decide _) as [_|Hno]; [done|]. exfalso. apply Hno.
    destruct (decide (i < 0)); [by right|left].
    unfold to_size_t. rewrite Z.mod_small; lia.
Qed.

Lemma range_vector_across_zero_witness :
  (∃ v, RangeVectorMalloc.cinit (-2) 1 = Returns v
        ∧ (0 ≤ 1 < 1 - -2 → RangeVectorMalloc.getitem v 1 = Undefined))
  ∧ (∃ v, RangeVectorCpp.cinit (-2) 1 = Returns v
          ∧ RangeVectorCpp.getitem v 1 = Returns PyNone).
Proof.
  apply (range_vector_across_zero (-2) 1 1).
  - unfold is_int, int_min, int_max. lia.
  - unfold is_int, int_min, int_max. lia.
  - unfold is_int, int_min, int_max. lia.
  - lia.
  - unfold int_max. lia.
Defined.

(** ** Rectangles *)

Lemma rectangles_loop (m : nat) (g : MonteCarlo.rng Qc) :
  foldl (λ st _, Rectangles.append_random st) ([], g) (seqZ 0 (Z.of_nat m))
  = (Rectangles.drawn (MonteCarlo.draws g) (MonteCarlo.pos g) <$> seq 0 m,
     MonteCarlo.mk_rng (MonteCarlo.draws g) (MonteCarlo.pos g + 2 * m)).
Proof.
  destruct g as [d p]. cbv [MonteCarlo.draws MonteCarlo.pos].
  induction m as [|m IH].
  - simpl. do 2 f_equal. lia.
  - rewrite seqZ_S, foldl_app, IH. cbv [foldl].
    unfold Rectangles.append_random, MonteCarlo.random.
    cbv [MonteCarlo.draws MonteCarlo.pos].
    rewrite seq_S, fmap_app. simpl. unfold Rectangles.drawn.
    replace (p + (m + (m + 0)))%nat with (p + 2 * m)%nat by lia.
    replace (S (p + 2 * m)) with (p + 2 * m + 1)%nat by lia.
    do 2 f_equal. lia.
Qed.

Lemma rectangles_cinit_eq (n : Z) (g : MonteCarlo.rng Qc) :
  Rectangles.cinit n g
  = (Rectangles.mkCyRectangles
       (Rectangles.drawn (MonteCarlo.draws g) (MonteCarlo.pos g)
          <$> seq 0 (Z.to_nat (to_uint n))),
     MonteCarlo.mk_rng (MonteCarlo.draws g)
       (MonteCarlo.pos g + 2 * Z.to_nat (to_uint n))).
Proof.
  unfold Rectangles.cinit, urange.
  rewrite (to_uint_nonneg 0) by lia. rewrite Z.sub_0_r.
  pose proof (to_uint_range n).
  rewrite <- (Z2Nat.id (to_uint n)) at 1 by lia.
  by rewrite rectangles_loop.
Qed.

(** X14. [CyRectangles(n)] holds [n] rectangles for [n >= 0]; for a
    negative C [int] [n] the unsigned loop counter makes it [2^32 + n]
    rectangles, not none (the list is taken to grow as far as the loop
    asks). Each rectangle costs two draws. *)
Theorem rectangles_count (n : Z) (g : MonteCarlo.rng Qc) :
  is_int n →
  Z.of_nat (length (Rectangles.rectangles (Rectangles.cinit n g).1))
  = (if decide (0 ≤ n) then n else 2 ^ 32 + n)
  ∧ MonteCarlo.pos (Rectangles.cinit n g).2
    = (MonteCarlo.pos g
       + 2 * length (Rectangles.rectangles (Rectangles.cinit n g).1))%nat.
Proof.
  intros Hn%is_int_bounds. rewrite rectangles_cinit_eq. simpl.
  rewrite length_fmap, length_seq. split; [|done].
  pose proof (to_uint_range n). rewrite Z2Nat.id by lia.
  destruct (decide (0 ≤ n)).
  - apply to_uint_nonneg. lia.
  - rewrite to_uint_neg by lia. lia.
Qed.

Lemma rectangles_count_witness :
  Z.of_nat (length (Rectangles.rectangles (Rectangles.cinit 3 thirds).1))
  = (if decide (0 ≤ 3) then 3 else 2 ^ 32 + 3)
  ∧ MonteCarlo.pos (Rectangles.cinit 3 thirds).2
    = (MonteCarlo.pos thirds
       + 2 * length (Rectangles.rectangles (Rectangles.cinit 3 thirds).1))%nat.
Proof.
  apply (rectangles_count 3 thirds).
  unfold is_int, int_min, int_max. lia.
Defined.

Lemma Q2Qc_inject_Z_plus (a b : Z) :
  Q2Qc (inject_Z (a + b)) = (Q2Qc (inject_Z a) + Q2Qc (inject_Z b))%Qc.
Proof.
  apply Qc_is_canon. unfold Qcplus, Q2Qc; simpl this.
  rewrite !Qred_correct, inject_Z_plus. reflexivity.
Qed.

Lemma Q2Qc_inject_Z_le (a b : Z) :
  a ≤ b → (Q2Qc (inject_Z a) ≤ Q2Qc (inject_Z b))%Qc.
Proof.
  intros H. unfold Qcle. simpl. rewrite !Qred_correct. by rewrite <- Zle_Qle.
Qed.

Lemma total_area_snoc (l : list Rectangles.CyRectangle) (r : Rectangles.CyRectangle) :
  Rectangles.total_area (Rectangles.mkCyRectangles (l ++ [r]))
  = (Rectangles.total_area (Rectangles.mkCyRectangles l) + Rectangles.area r)%Qc.
Proof. unfold Rectangles.total_area. simpl. by rewrite foldl_app. Qed.

Lemma total_area_bounds (l : list Rectangles.CyRectangle) :
  Forall (λ r, (0 ≤ Rectangles.area r ∧ Rectangles.area r ≤ 1)%Qc) l →
  (0 ≤ Rectangles.total_area (Rectangles.mkCyRectangles l))%Qc
  ∧ (Rectangles.total_area (Rectangles.mkCyRectangles l)
     ≤ Q2Qc (inject_Z (Z.of_nat (length l))))%Qc.
Proof.
  induction l as [|r l IH] using rev_ind; intros Hall.
  - split; apply Qcle_refl.
  - apply Forall_app in Hall as [Hl Hr]. apply Forall_singleton in Hr as [Hr0 Hr1].
    destruct (IH Hl) as [IH0 IH1]. rewrite total_area_snoc. split.
    + by apply Qcplus_nonneg_nonneg.
    + rewrite length_app, Nat.add_1_r, Nat2Z.inj_succ.
      unfold Z.succ. rewrite Q2Qc_inject_Z_plus. by apply Qcplus_le_compat.
Qed.

Lemma area_unit_square (a b : Qc) :
  (0 ≤ a ∧ a ≤ 1)%Qc → (0 ≤ b ∧ b ≤ 1)%Qc → (0 ≤ a * b ∧ a * b ≤ 1)%Qc.
Proof.
  intros [Ha0 Ha1] [Hb0 Hb1]. split; [by apply Qcmult_nonneg_nonneg|].
  apply Qcle_trans with (1 * b)%Qc.
  - by apply Qcmult_le_compat_r.
  - by rewrite Qcmult_1_l.
Qed.

(** X15. When every draw lies in [[0, 1]], the [total_area] of
    [CyRectangles(n)] lies between [0] and the number of rectangles. *)
Theorem rectangles_total_area_bounds (n : Z) (g : MonteCarlo.rng Qc) :
  (∀ k, (0 ≤ MonteCarlo.draws g k ∧ MonteCarlo.draws g k ≤ 1)%Qc) →
  let self := (Rectangles.cinit n g).1 in
  (0 ≤ Rectangles.total_area self)%Qc
  ∧ (Rectangles.total_area self
     ≤ Q2Qc (inject_Z (Z.of_nat (length (Rectangles.rectangles self)))))%Qc.
Proof.
  intros Hd self. subst self. rewrite rectangles_cinit_eq. cbn [fst].
  apply total_area_bounds. apply Forall_fmap, Forall_forall. intros i _. simpl.
  unfold Rectangles.area. simpl. by apply area_unit_square.
Qed.

Lemma rectangles_total_area_bounds_witness :
  let self := (Rectangles.cinit 3 thirds).1 in
  (0 ≤ Rectangles.total_area self)%Qc
  ∧ (Rectangles.total_area self
     ≤ Q2Qc (inject_Z (Z.of_nat (length (Rectangles.rectangles self)))))%Qc.
Proof.
  apply (rectangles_total_area_bounds 3 thirds).
  intros k. unfold thirds. cbn [MonteCarlo.draws].
  assert (Hk : (k `mod` 4 < 4)%nat) by (apply Nat.mod_upper_bound; lia).
  destruct (k `mod` 4)%nat as [|[|[|[|?]]]]; try lia; split; by vm_compute.
Defined.

Example total_area_thirds :
  Rectangles.total_area (Rectangles.cinit 2 thirds).1 = Q2Qc (2 # 3).
Proof. apply Qc_is_canon. vm_compute. reflexivity. Qed.

(** X16. The area and the perimeter of a [CyRectangle] obey
    [16 * area <= perimeter^2], with equality exactly for a square. *)
Theorem rectangle_isoperimetric (r : Rectangles.CyRectangle) :
  (Q2Qc 16 * Rectangles.area r
   ≤ Rectangles.perimeter r * Rectangles.perimeter r)%Qc
  ∧ ((Q2Qc 16 * Rectangles.area r
      = Rectangles.perimeter r * Rectangles.perimeter r)%Qc
     ↔ Rectangles.x r = Rectangles.y r).
Proof.
  destruct r as [a b]. unfold Rectangles.area, Rectangles.perimeter. simpl.
  assert (H16 : Q2Qc 16 = ((1 + 1) * (1 + 1) * ((1 + 1) * (1 + 1)))%Qc)
    by (apply Qc_is_canon; reflexivity).
  rewrite H16, Qc_two.
  assert (Hd : ((1 + 1) * (a + b) * ((1 + 1) * (a + b))
                - (1 + 1) * (1 + 1) * ((1 + 1) * (1 + 1)) * (a * b)
                = (1 + 1) * (1 + 1) * ((a - b) * (a - b)))%Qc) by ring.
  assert (H4 : (0 ≤ (1 + 1) * (1 + 1))%Qc) by (by vm_compute).
  split.
  - apply Qcle_minus_iff.
    change (?p + - ?q)%Qc with (p - q)%Qc.
    rewrite Hd. apply Qcmult_nonneg_nonneg; [done|apply Qc_square_nonneg].
  - split.
    + intros Heq. rewrite Heq in Hd.
      assert (Hz : ((1 + 1) * (1 + 1) * ((a - b) * (a - b)))%Qc = 0%Qc)
        by (rewrite <- Hd; ring).
      apply Qcmult_integral in Hz as [Hz|Hz]; [by vm_compute in Hz|].
      assert (Hab : (a - b)%Qc = 0%Qc)
        by (apply Qcmult_integral in Hz; by destruct Hz).
      replace a with ((a - b) + b)%Qc by ring. rewrite Hab. ring.
    + intros ->. ring.
Qed.
(** ** The compiled variants of [pi_mc] *)

Section VariantFacts.
Context `{Double D}.

(** A loop whose body counts like the body of [pi_mc] as long as the
    counter is below [B] computes what the loop of [pi_mc] computes, for
    up to [B] passes. *)
Lemma counting_loop (body : Z * MonteCarlo.rng D → Z * MonteCarlo.rng D) (B : Z) :
  (∀ c d q, 0 ≤ c < B →
     body (c, MonteCarlo.mk_rng d q)
     = (c + (if (d q * d q + d (q + 1)%nat * d (q + 1)%nat <=? dbl_of_Z 1)%D
             then 1 else 0),
        MonteCarlo.mk_rng d (q + 2))) →
  ∀ (m : nat) (g : MonteCarlo.rng D), Z.of_nat m ≤ B →
    foldl (λ st _, body st) (0, g) (seqZ 0 (Z.of_nat m))
    = foldl (λ st _, MonteCarlo.pi_mc_body st) (0, g) (seqZ 0 (Z.of_nat m)).
Proof.
  intros Hbody m g. induction m as [|m IH]; intros Hm; [done|].
  rewrite !seqZ_S, !foldl_app, IH by lia. rewrite pi_mc_loop. cbv [foldl].
  rewrite pi_mc_body_eq. apply Hbody.
  pose proof (count_inside_le (MonteCarlo.draws g) (MonteCarlo.pos g) m). lia.
Qed.

Lemma counting_result (body : Z * MonteCarlo.rng D → Z * MonteCarlo.rng D)
    (B n : Z) g :
  (∀ c d q, 0 ≤ c < B →
     body (c, MonteCarlo.mk_rng d q)
     = (c + (if (d q * d q + d (q + 1)%nat * d (q + 1)%nat <=? dbl_of_Z 1)%D
             then 1 else 0),
        MonteCarlo.mk_rng d (q + 2))) →
  n ≤ B →
  foldl (λ st _, body st) (0, g) (seqZ 0 n)
  = foldl (λ st _, MonteCarlo.pi_mc_body st) (0, g) (seqZ 0 n).
Proof.
  intros Hbody Hn. destruct (decide (0 ≤ n)) as [H0|H0].
  - rewrite <- (Z2Nat.id n) by done. apply (counting_loop body B); [done|lia].
  - by rewrite !seqZ_nil by lia.
Qed.

(** The loop of [pi_mc], for any [n]. *)
Lemma pi_mc_fold (n : Z) (g : MonteCarlo.rng D) :
  foldl (λ st _, MonteCarlo.pi_mc_body st) (0, g) (seqZ 0 n)
  = (Z.of_nat (MonteCarlo.count_inside (MonteCarlo.draws g) (MonteCarlo.pos g)
                 (Z.to_nat n)),
     MonteCarlo.mk_rng (MonteCarlo.draws g) (MonteCarlo.pos g + 2 * Z.to_nat n)).
Proof.
  destruct (decide (0 ≤ n)) as [Hn|Hn].
  - rewrite <- (Z2Nat.id n) at 1 by done. rewrite pi_mc_loop.
    by rewrite Z.add_0_l.
  - rewrite seqZ_nil by lia. replace (Z.to_nat n) with 0%nat by lia.
    destruct g as [d p]. unfold MonteCarlo.count_inside. simpl.
    do 2 f_equal. lia.
Qed.

(** The product [4.0 * in_circle] of the interpreter is the product of
    the hardware when the counter has 64 bits. *)
Lemma mul_int_long (a : D) (c : Z) :
  - 2 ^ 63 ≤ c < 2 ^ 63 → MonteCarlo.mul_int a c = Returns (a * dbl_of_Z c)%D.
Proof.
  intros Hc. unfold MonteCarlo.mul_int, MonteCarlo.float_of_int.
  by rewrite dbl_overflow_long.
Qed.

Lemma to_long_id z : - 2 ^ 63 ≤ z ≤ 2 ^ 63 - 1 → MonteCarloCython.to_long z = z.
Proof.
  intros Hz. unfold MonteCarloCython.to_long. rewrite Z.mod_small; lia.
Qed.

End VariantFacts.



(** X18. [pi_mc_inferred], which tests [x * x + y * y] and counts in
    an inferred C [long], computes what [pi_mc] computes for every
    [n < 2^63]. *)
Theorem pi_mc_inferred_agrees `{Double D} (n : Z) (g : MonteCarlo.rng D) :
  n ≤ 2 ^ 63 - 1 →
  MonteCarloCython.pi_mc_inferred n g = MonteCarlo.pi_mc n g.
Proof.
  intros Hn. unfold MonteCarloCython.pi_mc_inferred, MonteCarlo.pi_mc.
  rewrite (counting_result MonteCarloCython.pi_mc_inferred_body (2 ^ 63 - 1));
    [| |lia].
  - rewrite pi_mc_fold. f_equal.
    pose proof (count_inside_le (MonteCarlo.draws g) (MonteCarlo.pos g) (Z.to_nat n)).
    by rewrite mul_int_long by lia.
  - intros c d q Hc.
    unfold MonteCarloCython.pi_mc_inferred_body, MonteCarloCython.my_rand,
      MonteCarlo.random.
    cbv [MonteCarlo.draws MonteCarlo.pos].
    replace (S q) with (q + 1)%nat by lia.
    replace (S (q + 1)) with (q + 2)%nat by lia.
    destruct (_ <=? _)%D; [|f_equal; lia]. rewrite to_long_id by lia. done.
Qed.

Lemma pi_mc_inferred_agrees_witness :
  MonteCarloCython.pi_mc_inferred 4 float_thirds = MonteCarlo.pi_mc 4 float_thirds.
Proof. apply (pi_mc_inferred_agrees 4 float_thirds). lia. Defined.



(** X20. In exact arithmetic, for [n >= 1] the estimate that
    [pi_mc(n)] returns lies between [0] and [4]. *)
Theorem pi_mc_between_0_and_4 (n : Z) (g : MonteCarlo.rng Qc) :
  1 ≤ n →
  ∃ v, (MonteCarlo.pi_mc n g).1 = Returns v ∧ (0 ≤ v)%Qc ∧ (v ≤ Q2Qc 4)%Qc.
Proof.
  intros Hn. rewrite pi_mc_result by done. rewrite decide_False by lia.
  eexists. split; [done|]. cbn [dbl_of_Z dbl_mul dbl_div exact_arithmetic].
  change (Q2Qc (inject_Z 4)) with (Q2Qc 4).
  set (c := MonteCarlo.count_inside _ _ _).
  assert (Hc : Z.of_nat c ≤ n).
  { pose proof (count_inside_le (MonteCarlo.draws g) (MonteCarlo.pos g) (Z.to_nat n)).
    subst c. lia. }
  assert (Hc0 : (0 ≤ Q2Qc (inject_Z (Z.of_nat c)))%Qc)
    by (apply (Q2Qc_inject_Z_le 0); lia).
  assert (Hcn : (Q2Qc (inject_Z (Z.of_nat c)) ≤ Q2Qc (inject_Z n))%Qc)
    by (by apply Q2Qc_inject_Z_le).
  assert (Hn0 : (0 < Q2Qc (inject_Z n))%Qc).
  { apply Qclt_le_trans with (Q2Qc (inject_Z 1)); [by vm_compute|].
    by apply Q2Qc_inject_Z_le. }
  assert (Hne : Q2Qc (inject_Z n) ≠ 0%Qc).
  { intros He. rewrite He in Hn0. by apply Qclt_not_eq in Hn0. }
  pose proof (Qcinv_pos _ Hn0) as Hi%Qclt_le_weak.
  assert (H4 : (0 ≤ Q2Qc 4)%Qc) by (by vm_compute).
  unfold Qcdiv. split.
  - apply Qcmult_nonneg_nonneg; [by apply Qcmult_nonneg_nonneg|done].
  - replace (Q2Qc 4 * Q2Qc (inject_Z (Z.of_nat c)) * / Q2Qc (inject_Z n))%Qc
      with (Q2Qc (inject_Z (Z.of_nat c)) * / Q2Qc (inject_Z n) * Q2Qc 4)%Qc by ring.
    rewrite <- (Qcmult_1_l (Q2Qc 4)) at 2.
    apply Qcmult_le_compat_r; [|done].
    rewrite <- (Qcmult_inv_r _ Hne). by apply Qcmult_le_compat_r.
Qed.

Lemma pi_mc_between_0_and_4_witness :
  ∃ v, (MonteCarlo.pi_mc 4 thirds).1 = Returns v ∧ (0 ≤ v)%Qc ∧ (v ≤ Q2Qc 4)%Qc.
Proof. apply (pi_mc_between_0_and_4 4 thirds). lia. Defined.

(** ** More on the Julia kernels *)

Section JuliaCounts.
Context `{Double D}.

Lemma escape_count_range (left : D * D → Prop) (cx cy : D) cap (x0 y0 : D) v :
  0 ≤ cap → Julia.escape_count left cx cy cap x0 y0 v → 0 ≤ v ≤ cap.
Proof. intros Hcap [(k & Hk & _ & _ & ->)|[_ ->]]; lia. Qed.

Lemma escape_count_unique (left : D * D → Prop) (cx cy : D) cap (x0 y0 : D) v v' :
  Julia.escape_count left cx cy cap x0 y0 v →
  Julia.escape_count left cx cy cap x0 y0 v' → v = v'.
Proof.
  intros [(k & Hk & He & Hl & ->)|[Hno ->]] [(k' & Hk' & He' & Hl' & ->)|[Hno' ->]].
  - destruct (Nat.lt_trichotomy k k') as [Hlt|[->|Hlt]]; [|done|].
    + by destruct (Hl' k Hlt).
    + by destruct (Hl k' Hlt).
  - by destruct (Hno' k Hk).
  - by destruct (Hno k' Hk').
  - done.
Qed.

Lemma escape_count_min (left : D * D → Prop) (cx cy : D) m M (x0 y0 : D) v :
  0 ≤ m ≤ M →
  Julia.escape_count left cx cy M x0 y0 v →
  Julia.escape_count left cx cy m x0 y0 (Z.min v m).
Proof.
  intros Hm [(k & Hk & He & Hl & ->)|[Hno ->]].
  - destruct (decide (Z.of_nat k < m)) as [Hlt|Hge].
    + left. exists k. rewrite Z.min_l by lia. done.
    + right. rewrite Z.min_r by lia. split; [|done].
      intros k' Hk'. apply Hl. lia.
  - right. rewrite Z.min_r by lia. split; [|done].
    intros k Hk. apply Hno. lia.
Qed.

Lemma julia_while_cap_min (cx cy : D) (m M : Z) (radius2 x0 y0 : D) :
  0 ≤ m ≤ M →
  Julia.pk (Julia.julia_while cx cy m radius2 (Julia.mk_pixel x0 y0 0))
  = Z.min (Julia.pk (Julia.julia_while cx cy M radius2 (Julia.mk_pixel x0 y0 0))) m.
Proof.
  intros Hm.
  pose proof (julia_while_escape_count cx cy m radius2 x0 y0) as H1.
  pose proof (julia_while_escape_count cx cy M radius2 x0 y0) as H2.
  rewrite Z.max_r in H1, H2 by lia.
  apply (escape_count_unique _ _ _ _ _ _ _ _ H1).
  by apply (escape_count_min _ cx cy m M).
Qed.

End JuliaCounts.

(** X21. Every cell that [julia_set_cython] writes holds a count
    between [0] and [max(iter_max, 0)]. *)
Theorem julia_counts_within_cap `{Double D}
    (cx cy : D) (iter_max : Z) (radius2 : D)
    (X Y : ndarray D) (julia : ndarray Z) (ny nx : nat) :
  is_int (Z.of_nat ny) → is_int (Z.of_nat nx) →
  well_formed X → well_formed Y → well_formed julia →
  shape X = (ny, nx) → shape Y = (ny, nx) → shape julia = (ny, nx) →
  ∃ out,
    Julia.julia_set_cython cx cy iter_max radius2 X Y julia = Returns out
    ∧ ∀ i j, (i < ny)%nat → (j < nx)%nat →
        ∃ v, lookup2 out i j = Some v ∧ 0 ≤ v ≤ Z.max 0 iter_max.
Proof.
  intros Hny Hnx HX HY HJ HsX HsY HsJ. eexists. split.
  - by apply (julia_set_cython_is_tabulate cx cy iter_max radius2 X Y julia ny nx).
  - intros i j Hi Hj. eexists. split.
    + by rewrite lookup2_tabulate, decide_True.
    + apply (escape_count_range (Julia.escaped radius2) cx cy _
               (Julia.grid_entry X i j) (Julia.grid_entry Y i j)); [lia|].
      apply julia_while_escape_count.
Qed.

Lemma julia_counts_within_cap_witness :
  ∃ out,
    Julia.julia_set_cython 0%float 0%float 10 4%float grid_X grid_Y sample_julia
    = Returns out
    ∧ ∀ i j, (i < 2)%nat → (j < 2)%nat →
        ∃ v, lookup2 out i j = Some v ∧ 0 ≤ v ≤ Z.max 0 10.
Proof.
  apply (julia_counts_within_cap 0%float 0%float 10 4%float
           grid_X grid_Y sample_julia 2 2).
  - unfold is_int, int_min, int_max. lia.
  - unfold is_int, int_min, int_max. lia.
  - split; [reflexivity|]. repeat constructor.
  - split; [reflexivity|]. repeat constructor.
  - split; [reflexivity|]. repeat constructor.
  - reflexivity.
  - reflexivity.
  - reflexivity.
Defined.

(** X22. Lowering the cap truncates the counts: for [0 <= m <= M], the
    cell that the kernel writes with [iter_max = m] is the minimum of [m]
    and the cell it writes with [iter_max = M]. *)
Theorem julia_cap_truncates `{Double D}
    (cx cy : D) (m M : Z) (radius2 : D)
    (X Y : ndarray D) (julia julia' : ndarray Z) (ny nx : nat) :
  0 ≤ m ≤ M →
  is_int (Z.of_nat ny) → is_int (Z.of_nat nx) →
  well_formed X → well_formed Y → well_formed julia → well_formed julia' →
  shape X = (ny, nx) → shape Y = (ny, nx) →
  shape julia = (ny, nx) → shape julia' = (ny, nx) →
  ∃ out_m out_M,
    Julia.julia_set_cython cx cy m radius2 X Y julia = Returns out_m
    ∧ Julia.julia_set_cython cx cy M radius2 X Y julia' = Returns out_M
    ∧ ∀ i j, (i < ny)%nat → (j < nx)%nat →
        ∃ v_m v_M, lookup2 out_m i j = Some v_m ∧ lookup2 out_M i j = Some v_M
                   ∧ v_m = Z.min v_M m.
Proof.
  intros Hm Hny Hnx HX HY HJ HJ' HsX HsY HsJ HsJ'. eexists _, _.
  split; [by apply (julia_set_cython_is_tabulate cx cy m radius2 X Y julia ny nx)|].
  split; [by apply (julia_set_cython_is_tabulate cx cy M radius2 X Y julia' ny nx)|].
  intros i j Hi Hj. eexists _, _.
  rewrite !lookup2_tabulate, !decide_True by done.
  split; [done|]. split; [done|]. by apply julia_while_cap_min.
Qed.

Lemma julia_cap_truncates_witness :
  ∃ out_m out_M,
    Julia.julia_set_cython 0%float 0%float 3 4%float grid_X grid_Y sample_julia
    = Returns out_m
    ∧ Julia.julia_set_cython 0%float 0%float 10 4%float grid_X grid_Y sample_julia'
      = Returns out_M
    ∧ ∀ i j, (i < 2)%nat → (j < 2)%nat →
        ∃ v_m v_M, lookup2 out_m i j = Some v_m ∧ lookup2 out_M i j = Some v_M
                   ∧ v_m = Z.min v_M 3.
Proof.
  apply (julia_cap_truncates 0%float 0%float 3 10 4%float
           grid_X grid_Y sample_julia sample_julia' 2 2).
  - lia.
  - unfold is_int, int_min, int_max. lia.
  - unfold is_int, int_min, int_max. lia.
  - split; [reflexivity|]. repeat constructor.
  - split; [reflexivity|]. repeat constructor.
  - split; [reflexivity|]. repeat constructor.
  - split; [reflexivity|]. repeat constructor.
  - reflexivity.
  - reflexivity.
  - reflexivity.
  - reflexivity.
Defined.






(** X24. The kernel runs with bounds checking off and takes [ny], [nx]
    from [X]: an output array with fewer rows than [X] makes it write
    outside the array. *)
Theorem julia_output_too_short `{Double D}
    (cx cy : D) (iter_max : Z) (radius2 : D)
    (X Y : ndarray D) (julia : ndarray Z) (ny nx rows_out : nat) :
  is_int (Z.of_nat ny) → is_int (Z.of_nat nx) →
  well_formed X → well_formed Y → well_formed julia →
  shape X = (ny, nx) → shape Y = (ny, nx) → shape julia = (rows_out, nx) →
  (rows_out < ny)%nat → (1 ≤ nx)%nat →
  Julia.julia_set_cython cx cy iter_max radius2 X Y julia = Undefined.
Proof.
  intros Hny Hnx HX HY HJ HsX HsY HsJ Hrows Hcols.
  unfold Julia.julia_set_cython. rewrite HsX.
  cbn [fst snd]. rewrite !to_int_id by done.
  rewrite for_each_seqZ.
  rewrite (for_each_ext _ _ _ _ (λ i julia0, for_each_seqZ nx _ julia0)).
  replace ny with (rows_out + S (ny - rows_out - 1))%nat at 1 by lia.
  rewrite seq_app, for_each_app.
  destruct (fill_loop rows_out nx
    (λ i j julia,
       x ← getitem_unchecked X (Z.to_nat (Z.of_nat i)) (Z.to_nat (Z.of_nat j));
       y ← getitem_unchecked Y (Z.to_nat (Z.of_nat i)) (Z.to_nat (Z.of_nat j));
       setitem_unchecked julia (Z.to_nat (Z.of_nat i)) (Z.to_nat (Z.of_nat j))
         (Julia.pk (Julia.julia_while cx cy iter_max radius2 (Julia.mk_pixel x y 0))))
    (λ i j, Julia.pk (Julia.julia_while cx cy iter_max radius2
                        (Julia.mk_pixel (Julia.grid_entry X i j) (Julia.grid_entry Y i j) 0)))
    julia)
    as (d & Hrun & Hsh & Hwf & Hent); [done|by rewrite HsJ|by rewrite HsJ| |].
  - intros i j a0 a' Hi Hj Hup. rewrite !Nat2Z.id.
    rewrite !getitem_unchecked_grid by (done || rewrite ?HsX, ?HsY; simpl; lia).
    cbn [mbind outcome_bind]. unfold setitem_unchecked. by rewrite Hup.
  - rewrite Hrun. cbn [mbind outcome_bind plus seq for_each].
    destruct nx as [|nx']; [lia|]. cbn [seq for_each]. rewrite !Nat2Z.id.
    rewrite !getitem_unchecked_grid by (done || rewrite ?HsX, ?HsY; simpl; lia).
    cbn [mbind outcome_bind]. unfold setitem_unchecked, update2.
    destruct Hwf as [Hlen _]. rewrite Hsh, HsJ in Hlen. simpl in Hlen.
    rewrite (lookup_ge_None_2 (rows d) rows_out) by lia. done.
Qed.

Lemma julia_output_too_short_witness :
  Julia.julia_set_cython 0%float 0%float 10 4%float grid_X grid_Y
    (mk_ndarray (1%nat, 2%nat) [[9; 9]]) = Undefined.
Proof.
  apply (julia_output_too_short 0%float 0%float 10 4%float
           grid_X grid_Y (mk_ndarray (1%nat, 2%nat) [[9; 9]]) 2 2 1).
  - unfold is_int, int_min, int_max. lia.
  - unfold is_int, int_min, int_max. lia.
  - split; [reflexivity|]. repeat constructor.
  - split; [reflexivity|]. repeat constructor.
  - split; [reflexivity|]. repeat constructor.
  - reflexivity.
  - reflexivity.
  - reflexivity.
  - lia.
  - lia.
Defined.
